(** * KVideo: the Traditional-to-Simplified interception layer of [src/app/layout.tsx]

    The root layout injects one inline classic script (lines 158-218) that
    waits for the global [ChineseS2T], then replaces [window.fetch],
    [XMLHttpRequest.prototype.open], [history.pushState] and
    [history.replaceState] by wrappers which rewrite a string URL argument
    with [convertUrl] before delegating to the implementation they captured.

    The development embeds that script: the JavaScript values it inspects,
    the built-ins [decodeURI] / [encodeURI] it calls (ECMA-262, 19.2.6), the
    function [convertUrl], the four wrapper closures, and [initS2T] together
    with the timer queue it re-arms through [setTimeout]. *)

From Stdlib Require Import NArith ZArith List String Ascii Bool Lia.
From Stdlib Require Import Floats.SpecFloat.
From stdpp Require Import base list.
Import ListNotations.

Open Scope N_scope.

(** ** JavaScript values *)

(** A string is a sequence of UTF-16 code units. *)
Definition code_unit := N.
Definition jsstring := list code_unit.

Definition units (s : string) : jsstring :=
  map N_of_ascii (list_ascii_of_string s).

Definition code_unit_ok (c : code_unit) : Prop := c < 0x10000.
Definition jsstring_ok (s : jsstring) : Prop := Forall code_unit_ok s.

Inductive native_error := URIError | TypeError.

Inductive value :=
| VUndefined
| VNull
| VBoolean (b : bool)
| VNumber (x : spec_float)
| VBigInt (z : Z)
| VSymbol (n : nat)
| VString (s : jsstring)
| VObject (n : nat)              (* an ordinary object: a Request, an array, ... *)
| VFunction (n : nat)            (* a callable object *)
| VGlobal                        (* the global object, [window] *)
| VBoxed (primitive : value)     (* wrapper object made by ToObject *)
| VNativeError (k : native_error)
| VPromiseResolved (v : value)   (* promise resolved with [v] *)
| VPromiseRejected (e : value).  (* promise rejected with reason [e] *)

Inductive jstype :=
| TUndefined | TObject | TBoolean | TNumber | TBigInt | TSymbol | TString | TFunction.

Definition jstype_eqb (a b : jstype) : bool :=
  match a, b with
  | TUndefined, TUndefined | TObject, TObject | TBoolean, TBoolean
  | TNumber, TNumber | TBigInt, TBigInt | TSymbol, TSymbol
  | TString, TString | TFunction, TFunction => true
  | _, _ => false
  end.

(** The [typeof] operator. *)
Definition typeof (v : value) : jstype :=
  match v with
  | VUndefined => TUndefined
  | VNull => TObject
  | VBoolean _ => TBoolean
  | VNumber _ => TNumber
  | VBigInt _ => TBigInt
  | VSymbol _ => TSymbol
  | VString _ => TString
  | VFunction _ => TFunction
  | VObject _ | VGlobal | VBoxed _ | VNativeError _
  | VPromiseResolved _ | VPromiseRejected _ => TObject
  end.

(** ToBoolean, the truthiness used by [!url]. *)
Definition ToBoolean (v : value) : bool :=
  match v with
  | VUndefined | VNull => false
  | VBoolean b => b
  | VNumber (S754_zero _) | VNumber S754_nan => false
  | VNumber _ => true
  | VBigInt z => negb (Z.eqb z 0)
  | VString s => negb (Nat.eqb (length s) 0)
  | _ => true
  end.

(** The [this] value of a function of a non-strict script (OrdinaryCallBindThis):
    a missing receiver becomes the global object, a primitive one is boxed. *)
Definition this_binding (thisArg : value) : value :=
  match thisArg with
  | VUndefined | VNull => VGlobal
  | VBoolean _ | VNumber _ | VBigInt _ | VSymbol _ | VString _ => VBoxed thisArg
  | _ => thisArg
  end.

(** ** Completions: a returned value or a thrown one *)

Inductive completion (A : Type) :=
| Normal (a : A)
| Throw (e : value).
Arguments Normal {A} a.
Arguments Throw {A} e.

Definition bind {A B} (c : completion A) (k : A -> completion B) : completion B :=
  match c with
  | Normal a => k a
  | Throw e => Throw e
  end.

Notation "x <- c ;; k" := (bind c (fun x => k))
  (at level 100, c at next level, right associativity).

(** [try { body } catch (e) { handler }] *)
Definition try_catch {A} (body : completion A) (handler : value -> completion A)
  : completion A :=
  match body with
  | Normal a => Normal a
  | Throw e => handler e
  end.

(** ** URI handling functions (ECMA-262, 19.2.6) *)

Definition in_set (c : code_unit) (set : jsstring) : bool := existsb (N.eqb c) set.

Definition uriReserved : jsstring := units ";/?:@&=+$,".
Definition uriAlpha : jsstring :=
  units "abcdefghijklmnopqrstuvwxyzABCDEFGHIJKLMNOPQRSTUVWXYZ".
Definition DecimalDigit : jsstring := units "0123456789".
Definition uriMark : jsstring := units "-_.!~*'()".
Definition uriUnescaped : jsstring := uriAlpha ++ DecimalDigit ++ uriMark.

Definition percent : code_unit := 37.

Definition is_leading_surrogate (c : N) : bool := (0xD800 <=? c) && (c <=? 0xDBFF).
Definition is_trailing_surrogate (c : N) : bool := (0xDC00 <=? c) && (c <=? 0xDFFF).

Definition UTF16SurrogatePairToCodePoint (lead trail : code_unit) : N :=
  (lead - 0xD800) * 0x400 + (trail - 0xDC00) + 0x10000.

Definition UTF16EncodeCodePoint (cp : N) : jsstring :=
  if cp <=? 0xFFFF then [cp]
  else [(cp - 0x10000) / 0x400 + 0xD800; (cp - 0x10000) mod 0x400 + 0xDC00].

(** The UTF-8 transformation of a code point into octets. *)
Definition utf8_encode (cp : N) : list N :=
  if cp <? 0x80 then [cp]
  else if cp <? 0x800 then [0xC0 + cp / 64; 0x80 + cp mod 64]
  else if cp <? 0x10000 then
    [0xE0 + cp / 4096; 0x80 + (cp / 64) mod 64; 0x80 + cp mod 64]
  else
    [0xF0 + cp / 262144; 0x80 + (cp / 4096) mod 64;
     0x80 + (cp / 64) mod 64; 0x80 + cp mod 64].

Definition hex_digit (d : N) : code_unit := if d <? 10 then 48 + d else 55 + d.

Definition percent_escape (octet : N) : jsstring :=
  [percent; hex_digit (octet / 16); hex_digit (octet mod 16)].

Definition escape_code_point (cp : N) : jsstring :=
  flat_map percent_escape (utf8_encode cp).

(** Encode(string, unescapedSet): code units of [unescapedSet] are copied, any
    other code point is written as the escapes of its UTF-8 octets, and an
    unpaired surrogate throws a URIError. *)
Fixpoint Encode (unescapedSet : jsstring) (s : jsstring) : completion jsstring :=
  match s with
  | [] => Normal []
  | C :: rest =>
      if in_set C unescapedSet then
        R <- Encode unescapedSet rest ;; Normal (C :: R)
      else if is_leading_surrogate C then
        match rest with
        | C2 :: rest2 =>
            if is_trailing_surrogate C2 then
              R <- Encode unescapedSet rest2 ;;
              Normal (escape_code_point (UTF16SurrogatePairToCodePoint C C2) ++ R)
            else Throw (VNativeError URIError)
        | [] => Throw (VNativeError URIError)
        end
      else if is_trailing_surrogate C then Throw (VNativeError URIError)
      else
        R <- Encode unescapedSet rest ;; Normal (escape_code_point C ++ R)
  end.

Definition hex_value (c : code_unit) : option N :=
  if (48 <=? c) && (c <=? 57) then Some (c - 48)
  else if (65 <=? c) && (c <=? 70) then Some (c - 55)
  else if (97 <=? c) && (c <=? 102) then Some (c - 87)
  else None.

(** ParseHexOctet on the code units that follow a ["%"]. *)
Definition ParseHexOctet (s : jsstring) : option N :=
  match s with
  | h :: l :: _ =>
      match hex_value h, hex_value l with
      | Some a, Some b => Some (16 * a + b)
      | _, _ => None
      end
  | _ => None
  end.

(** Number of leading 1 bits of an octet (5 stands for five or more). *)
Definition leading_ones (B : N) : nat :=
  if B <? 0x80 then 0
  else if B <? 0xC0 then 1
  else if B <? 0xE0 then 2
  else if B <? 0xF0 then 3
  else if B <? 0xF8 then 4
  else 5.

(** The [j] escapes that must follow the first octet of a multi-octet sequence. *)
Fixpoint continuation_octets (j : nat) (s : jsstring) : option (list N) :=
  match j with
  | O => Some []
  | S j' =>
      match s with
      | c :: rest =>
          if c =? percent then
            match ParseHexOctet rest with
            | Some B => option_map (cons B) (continuation_octets j' (skipn 2 rest))
            | None => None
            end
          else None
      | [] => None
      end
  end.

Definition is_continuation (B : N) : bool := (0x80 <=? B) && (B <=? 0xBF).

(** The code point of a well-formed UTF-8 sequence of two to four octets, the
    first of which announces that many: no overlong form, no surrogate,
    nothing above U+10FFFF. *)
Definition utf8_decode (octets : list N) : option N :=
  match octets with
  | [b0; b1] =>
      let cp := (b0 - 0xC0) * 64 + (b1 - 0x80) in
      if is_continuation b1 && (0x80 <=? cp) then Some cp else None
  | [b0; b1; b2] =>
      let cp := (b0 - 0xE0) * 4096 + (b1 - 0x80) * 64 + (b2 - 0x80) in
      if is_continuation b1 && is_continuation b2 && (0x800 <=? cp)
         && negb ((0xD800 <=? cp) && (cp <=? 0xDFFF))
      then Some cp else None
  | [b0; b1; b2; b3] =>
      let cp := (b0 - 0xF0) * 262144 + (b1 - 0x80) * 4096
                + (b2 - 0x80) * 64 + (b3 - 0x80) in
      if is_continuation b1 && is_continuation b2 && is_continuation b3
         && (0x10000 <=? cp) && (cp <=? 0x10FFFF)
      then Some cp else None
  | _ => None
  end.

(** Decode(string, preserveEscapeSet).  [skip] counts the code units of the
    escape sequence under way that are still to be stepped over (the
    [k := k + 2] of the standard's loop). *)
Fixpoint Decode (preserveEscapeSet : jsstring) (skip : nat) (s : jsstring)
  : completion jsstring :=
  match s with
  | [] => Normal []
  | C :: rest =>
      match skip with
      | S skip' => Decode preserveEscapeSet skip' rest
      | O =>
          if C =? percent then
            match ParseHexOctet rest with
            | None => Throw (VNativeError URIError)
            | Some B =>
                match leading_ones B with
                | 0%nat =>
                    let Str := if in_set B preserveEscapeSet
                               then C :: firstn 2 rest else [B] in
                    R <- Decode preserveEscapeSet 2 rest ;; Normal (Str ++ R)
                | (2 | 3 | 4)%nat as n =>
                    match continuation_octets (n - 1) (skipn 2 rest) with
                    | None => Throw (VNativeError URIError)
                    | Some octets =>
                        match utf8_decode (B :: octets) with
                        | None => Throw (VNativeError URIError)
                        | Some V =>
                            R <- Decode preserveEscapeSet (3 * n - 1) rest ;;
                            Normal (UTF16EncodeCodePoint V ++ R)
                        end
                    end
                | _ => Throw (VNativeError URIError)
                end
            end
          else
            R <- Decode preserveEscapeSet 0 rest ;; Normal (C :: R)
      end
  end.

(** [encodeURI] leaves uriReserved, uriUnescaped and ["#"] as they are. *)
Definition encodeURI_unescaped : jsstring := uriReserved ++ uriUnescaped ++ units "#".
Definition encodeURI (uri : jsstring) : completion jsstring :=
  Encode encodeURI_unescaped uri.

(** [decodeURI] keeps the escapes of uriReserved and ["#"] as escapes. *)
Definition decodeURI_reserved : jsstring := uriReserved ++ units "#".
Definition decodeURI (encodedURI : jsstring) : completion jsstring :=
  Decode decodeURI_reserved 0 encodedURI.

(** ** The script of [layout.tsx], lines 158-218 *)

(** The functions that can sit at a dispatch point: an implementation of the
    host, or one of the four closures [initS2T] creates, each holding the
    implementation it captured in its [const original...]. *)
Inductive func :=
| Native (id : nat)
| FetchWrapper (originalFetch : func)
| OpenWrapper (originalOpen : func)
| PushStateWrapper (originalPushState : func)
| ReplaceStateWrapper (originalReplaceState : func).

(** One invocation of a host implementation, as the host sees it. *)
Record call := { callee : nat; receiver : value; arguments : list value }.

(** [args[i]]: reading past the end of the argument list gives [undefined]. *)
Definition arg (i : nat) (args : list value) : value := default VUndefined (args !! i).

(** The result of an [async function]: always a promise, resolved with the
    value the body returns or rejected with the value it throws. *)
Definition async_result (c : completion value) : completion value :=
  match c with
  | Normal v => Normal (VPromiseResolved v)
  | Throw e => Normal (VPromiseRejected e)
  end.

Section Script.

(** [ChineseS2T.t2s], the conversion of the external library: from a string
    to a string, or an exception. *)
Variable t2s : jsstring -> completion jsstring.

(** The host: its state, and what implementation [id] does when called with
    a receiver and an argument list. *)
Variable host : Type.
Variable native : nat -> value -> list value -> host -> completion value * host.

Record world := { host_state : host; calls : list call }.

(** [convertUrl], lines 167-176. *)
Definition convertUrl (url : value) : completion value :=
  if negb (ToBoolean url) || negb (jstype_eqb (typeof url) TString) then Normal url
  else
    match url with
    | VString s =>
        try_catch
          (decoded <- decodeURI s ;;
           simplified <- t2s decoded ;;
           encoded <- encodeURI simplified ;;
           Normal (VString encoded))
          (fun e => Normal url)
    | _ => Normal url
    end.

(** Calling a function with a receiver and arguments.  The wrappers are
    functions of a non-strict script, so their [this] is [this_binding] of
    the receiver; lines 180-185, 189-194, 198-203 and 206-211. *)
Fixpoint invoke (f : func) (thisArg : value) (args : list value) (w : world)
  : completion value * world :=
  match f with
  | Native id =>
      let (c, h) := native id thisArg args (host_state w) in
      (c, {| host_state := h;
             calls := calls w ++ [{| callee := id; receiver := thisArg;
                                     arguments := args |}] |})
  | FetchWrapper originalFetch =>
      let this := this_binding thisArg in
      let body :=
        match (if jstype_eqb (typeof (arg 0 args)) TString
               then (v <- convertUrl (arg 0 args) ;; Normal (<[0%nat := v]> args))
               else Normal args) with
        | Normal args => invoke originalFetch this args w
        | Throw e => (Throw e, w)
        end in
      (async_result (fst body), snd body)
  | OpenWrapper originalOpen =>
      let this := this_binding thisArg in
      let method := arg 0 args in
      let url := arg 1 args in
      let rest := drop 2 args in
      match (if jstype_eqb (typeof url) TString then convertUrl url else Normal url) with
      | Normal url => invoke originalOpen this (method :: url :: rest) w
      | Throw e => (Throw e, w)
      end
  | PushStateWrapper originalPushState =>
      let this := this_binding thisArg in
      let state := arg 0 args in
      let unused := arg 1 args in
      let url := arg 2 args in
      match (if jstype_eqb (typeof url) TString then convertUrl url else Normal url) with
      | Normal url => invoke originalPushState this [state; unused; url] w
      | Throw e => (Throw e, w)
      end
  | ReplaceStateWrapper originalReplaceState =>
      let this := this_binding thisArg in
      let state := arg 0 args in
      let unused := arg 1 args in
      let url := arg 2 args in
      match (if jstype_eqb (typeof url) TString then convertUrl url else Normal url) with
      | Normal url => invoke originalReplaceState this [state; unused; url] w
      | Throw e => (Throw e, w)
      end
  end.

End Script.

Arguments host_state {host} w.
Arguments calls {host} w.

(** *** The page: global bindings, timers, console *)

Inductive callback := InitS2T.

Record timer := { timer_callback : callback; due : N }.

Record page := {
  ChineseS2T : option value;       (* [None]: the global is not declared *)
  window_fetch : func;
  XMLHttpRequest_open : func;
  history_pushState : func;
  history_replaceState : func;
  timers : list timer;
  now : N;                         (* milliseconds *)
  console : list jsstring
}.

(** The line written by [console.log] at line 213. *)
Definition startup_notice : jsstring :=
  [55357; 56960; 32; 91; 75; 86; 105; 100; 101; 111; 93; 32; 32066; 26997;
   20840; 23616; 32321; 31777; 36681; 25563; 32; 40; 24213; 23652; 25876;
   25130; 41; 32; 24050; 21855; 21205; 65281].

(** [typeof ChineseS2T === 'undefined']: true of an undeclared global too. *)
Definition ChineseS2T_undefined (p : page) : bool :=
  match ChineseS2T p with
  | None => true
  | Some v => jstype_eqb (typeof v) TUndefined
  end.

Definition setTimeout (cb : callback) (delay : N) (p : page) : page :=
  {| ChineseS2T := ChineseS2T p;
     window_fetch := window_fetch p;
     XMLHttpRequest_open := XMLHttpRequest_open p;
     history_pushState := history_pushState p;
     history_replaceState := history_replaceState p;
     timers := timers p ++ [{| timer_callback := cb; due := now p + delay |}];
     now := now p;
     console := console p |}.

(** Lines 179-213: capture the four implementations and put the wrappers in
    their place, then log. *)
Definition install (p : page) : page :=
  let originalFetch := window_fetch p in
  let originalOpen := XMLHttpRequest_open p in
  let originalPushState := history_pushState p in
  let originalReplaceState := history_replaceState p in
  {| ChineseS2T := ChineseS2T p;
     window_fetch := FetchWrapper originalFetch;
     XMLHttpRequest_open := OpenWrapper originalOpen;
     history_pushState := PushStateWrapper originalPushState;
     history_replaceState := ReplaceStateWrapper originalReplaceState;
     timers := timers p;
     now := now p;
     console := console p ++ [startup_notice] |}.

(** [initS2T], lines 160-214. *)
Definition initS2T (p : page) : page :=
  if ChineseS2T_undefined p then setTimeout InitS2T 100 p
  else install p.

Definition run_callback (cb : callback) (p : page) : page :=
  match cb with
  | InitS2T => initS2T p
  end.

(** The event loop takes the oldest pending timer and runs its callback, at
    its due time or [late] milliseconds after it.  All timers of this script
    have the same delay, so the oldest one is the first one due. *)
Definition fire (late : N) (p : page) : page :=
  match timers p with
  | [] => p
  | t :: ts =>
      run_callback (timer_callback t)
        {| ChineseS2T := ChineseS2T p;
           window_fetch := window_fetch p;
           XMLHttpRequest_open := XMLHttpRequest_open p;
           history_pushState := history_pushState p;
           history_replaceState := history_replaceState p;
           timers := ts;
           now := N.max (now p) (due t) + late;
           console := console p |}
  end.

(** The external script (line 157) finishing to load: it defines the global. *)
Definition load_library (lib : value) (p : page) : page :=
  {| ChineseS2T := Some lib;
     window_fetch := window_fetch p;
     XMLHttpRequest_open := XMLHttpRequest_open p;
     history_pushState := history_pushState p;
     history_replaceState := history_replaceState p;
     timers := timers p;
     now := now p;
     console := console p |}.

(** What happens on the page after the script has started. *)
Inductive event :=
| Fire (late : N)
| Load (lib : value).

Definition step (p : page) (e : event) : page :=
  match e with
  | Fire late => fire late p
  | Load lib => load_library lib p
  end.

Definition run (es : list event) (p : page) : page := fold_left step es p.

(** The four dispatch points of a page. *)
Definition dispatch_points (p : page) : list func :=
  [window_fetch p; XMLHttpRequest_open p; history_pushState p; history_replaceState p].

(** ** Vocabulary of the statements *)

Definition octet (B : N) : Prop := B < 256.

(** Unicode scalar values: code points that are not surrogates. *)
Definition scalar (cp : N) : Prop := cp < 0x110000 /\ ~ (0xD800 <= cp <= 0xDFFF).

Inductive dispatch_point := Fetch | Open | PushState | ReplaceState.

(** The wrapper [initS2T] installs at a dispatch point, around [original]. *)
Definition wrapper (d : dispatch_point) (original : func) : func :=
  match d with
  | Fetch => FetchWrapper original
  | Open => OpenWrapper original
  | PushState => PushStateWrapper original
  | ReplaceState => ReplaceStateWrapper original
  end.

Definition binding (p : page) (d : dispatch_point) : func :=
  match d with
  | Fetch => window_fetch p
  | Open => XMLHttpRequest_open p
  | PushState => history_pushState p
  | ReplaceState => history_replaceState p
  end.

(** Number of wrappers stacked on the host implementation. *)
Fixpoint layers (f : func) : nat :=
  match f with
  | Native _ => 0
  | FetchWrapper o | OpenWrapper o | PushStateWrapper o | ReplaceStateWrapper o =>
      S (layers o)
  end.

(** What a wrapper makes of the completion of the implementation it calls:
    the [async] fetch wrapper turns it into a promise, the others return it. *)
Definition outcome (d : dispatch_point) (c : completion value) : completion value :=
  match d with
  | Fetch => async_result c
  | _ => c
  end.

Definition is_object (v : value) : bool :=
  match v with
  | VObject _ | VFunction _ | VGlobal | VBoxed _ | VNativeError _
  | VPromiseResolved _ | VPromiseRejected _ => true
  | _ => false
  end.

Definition is_nullish (v : value) : bool :=
  match v with
  | VUndefined | VNull => true
  | _ => false
  end.

Section Vocabulary.

Variable t2s : jsstring -> completion jsstring.

(** The URL Transform Function as the specification words it (4.2): a
    guard, three steps, and the input back when a step raises. *)
Definition convertUrl_spec (url : value) : completion value :=
  match url with
  | VString [] => Normal url
  | VString s =>
      match decodeURI s with
      | Throw _ => Normal url
      | Normal decoded =>
          match t2s decoded with
          | Throw _ => Normal url
          | Normal simplified =>
              match encodeURI simplified with
              | Throw _ => Normal url
              | Normal encoded => Normal (VString encoded)
              end
          end
      end
  | _ => Normal url
  end.

(** The value [convertUrl] returns. *)
Definition converted (url : value) : value :=
  match convertUrl t2s url with
  | Normal v => v
  | Throw _ => url
  end.

(** The argument at the rewritten position, as the original receives it. *)
Definition rewritten (v : value) : value :=
  match v with
  | VString _ => converted v
  | _ => v
  end.

(** The argument list the original receives from the wrapper of [d]. *)
Definition delegated_arguments (d : dispatch_point) (args : list value) : list value :=
  match d with
  | Fetch =>
      match args with
      | [] => []
      | resource :: options => rewritten resource :: options
      end
  | Open => arg 0 args :: rewritten (arg 1 args) :: drop 2 args
  | PushState | ReplaceState => [arg 0 args; arg 1 args; rewritten (arg 2 args)]
  end.

End Vocabulary.

(** The page [p] while the gate is polling: one timer for [initS2T], armed at
    time [t]. *)
Definition waiting (p : page) (t : N) : page :=
  {| ChineseS2T := ChineseS2T p;
     window_fetch := window_fetch p;
     XMLHttpRequest_open := XMLHttpRequest_open p;
     history_pushState := history_pushState p;
     history_replaceState := history_replaceState p;
     timers := [{| timer_callback := InitS2T; due := t + 100 |}];
     now := t;
     console := console p |}.

Definition total (lates : list N) : N := fold_right N.add 0 lates.

(** ** Sample libraries, hosts and pages *)

(** A library that has nothing to convert. *)
Definition t2s_identity (s : jsstring) : completion jsstring := Normal s.

(** A library that converts U+9AD4 to U+4F53 and U+9801 to U+9875, the two
    characters converted in the scenarios of the specification. *)
Definition t2s_sample (s : jsstring) : completion jsstring :=
  Normal (map (fun c => if c =? 0x9AD4 then 0x4F53
                        else if c =? 0x9801 then 0x9875 else c) s).

(** A conversion that is not idempotent: a to b, b to c. *)
Definition t2s_next (s : jsstring) : completion jsstring :=
  Normal (map (fun c => if c =? 97 then 98 else if c =? 98 then 99 else c) s).

(** A library whose [t2s] raises. *)
Definition t2s_failing (s : jsstring) : completion jsstring :=
  Throw (VNativeError TypeError).

(** A host whose implementations return [undefined]. *)
Definition native_quiet (id : nat) (this : value) (args : list value) (h : unit)
  : completion value * unit := (Normal VUndefined, h).

(** A host whose implementations throw the object 7. *)
Definition native_throwing (id : nat) (this : value) (args : list value) (h : unit)
  : completion value * unit := (Throw (VObject 7), h).

Definition fresh_world : world unit := {| host_state := tt; calls := [] |}.

(** The page when the inline script starts: host implementations 0 to 3 at
    the dispatch points, the library not loaded. *)
Definition pristine_page : page :=
  {| ChineseS2T := None;
     window_fetch := Native 0;
     XMLHttpRequest_open := Native 1;
     history_pushState := Native 2;
     history_replaceState := Native 3;
     timers := [];
     now := 0;
     console := [] |}.

Definition loaded_page : page := load_library (VObject 1) pristine_page.

(** The URLs of the scenarios of the specification (section 8). *)
Definition search_traditional : jsstring := units "/search?q=" ++ [0x7E41; 0x9AD4; 0x5B57].
Definition search_simplified : jsstring := units "/search?q=" ++ [0x7E41; 0x4F53; 0x5B57].
Definition search_simplified_encoded : jsstring :=
  units "/search?q=%E7%B9%81%E4%BD%93%E5%AD%97".
Definition page_traditional : jsstring := units "/" ++ [0x9801; 0x9762].
Definition page_simplified : jsstring := units "/" ++ [0x9875; 0x9762].
Definition page_simplified_encoded : jsstring := units "/%E9%A1%B5%E9%9D%A2".

(** ** Vocabulary of the further properties of the interception layer *)

(** The host implementation at the bottom of a stack of wrappers. *)
Fixpoint innermost (f : func) : nat :=
  match f with
  | Native id => id
  | FetchWrapper o | OpenWrapper o | PushStateWrapper o | ReplaceStateWrapper o =>
      innermost o
  end.

(** The characters of a string produced by [encodeURI]: ["%"] and the
    characters it does not escape (the hexadecimal digits are among them). *)
Definition uri_character (c : code_unit) : bool :=
  (c =? percent) || in_set c encodeURI_unescaped.

(** The strings among the arguments are sequences of 16-bit code units. *)
Definition value_ok (v : value) : Prop :=
  match v with
  | VString s => jsstring_ok s
  | _ => True
  end.

(** A library that gives strings and changes nothing in what it has
    converted. *)
Definition idempotent_library (t2s : jsstring -> completion jsstring) : Prop :=
  forall decoded simplified,
    jsstring_ok decoded -> t2s decoded = Normal simplified ->
    jsstring_ok simplified /\ t2s simplified = Normal simplified.

(** A library that gives strings. *)
Definition library_of_strings (t2s : jsstring -> completion jsstring) : Prop :=
  forall decoded simplified,
    jsstring_ok decoded -> t2s decoded = Normal simplified -> jsstring_ok simplified.

(** ** The ad-keyword loader [AdKeywordsWrapper], lines 19-55 *)

(** The separators of the regular expression [/[\n,]/]: line feed and comma. *)
Definition is_separator (c : code_unit) : bool := (c =? 10) || (c =? 44).

(** [S.split(/[\n,]/)]: the fields between the separators; there is always
    at least one field, the empty string gives one empty field. *)
Fixpoint split_on_separators (s : jsstring) : list jsstring :=
  match s with
  | [] => [[]]
  | c :: rest =>
      if is_separator c then [] :: split_on_separators rest
      else
        match split_on_separators rest with
        | field :: fields => (c :: field) :: fields
        | [] => [[c]]
        end
  end.

(** WhiteSpace and LineTerminator of ECMA-262 (12.2, 12.3), the code points
    [String.prototype.trim] strips. *)
Definition is_white_space (c : code_unit) : bool :=
  in_set c [0x9; 0xB; 0xC; 0x20; 0xA0; 0x1680; 0x202F; 0x205F; 0x3000; 0xFEFF]
  || ((0x2000 <=? c) && (c <=? 0x200A)).

Definition is_line_terminator (c : code_unit) : bool :=
  in_set c [0xA; 0xD; 0x2028; 0x2029].

Definition is_trimmed_away (c : code_unit) : bool :=
  is_white_space c || is_line_terminator c.

Fixpoint trim_start (s : jsstring) : jsstring :=
  match s with
  | [] => []
  | c :: rest => if is_trimmed_away c then trim_start rest else s
  end.

Fixpoint trim_end (s : jsstring) : jsstring :=
  match s with
  | [] => []
  | c :: rest =>
      match trim_end rest with
      | [] => if is_trimmed_away c then [] else [c]
      | kept => c :: kept
      end
  end.

(** [String.prototype.trim] *)
Definition trim (s : jsstring) : jsstring := trim_end (trim_start s).

(** [content.split(/[\n,]/).map(k => k.trim()).filter(k => k)], lines 33 and 47. *)
Definition parse_keywords (content : jsstring) : list jsstring :=
  List.filter (fun k => ToBoolean (VString k))
    (map trim (split_on_separators content)).

(** A variable of [process.env]: a string, or [undefined] when it is not set. *)
Definition env_value (v : option jsstring) : value :=
  match v with
  | Some s => VString s
  | None => VUndefined
  end.

(** The operator [||]. *)
Definition js_or (a b : value) : value := if ToBoolean a then a else b.

Record environment := {
  AD_KEYWORDS_FILE : option jsstring;
  AD_KEYWORDS : option jsstring;
  NEXT_PUBLIC_AD_KEYWORDS : option jsstring
}.

(** The error a failed [readFile] rejects with; [code] may be missing. *)
Record fs_error := { code : option jsstring }.

Fixpoint jsstring_eqb (a b : jsstring) : bool :=
  match a, b with
  | [], [] => true
  | x :: a', y :: b' => (x =? y) && jsstring_eqb a' b'
  | _, _ => false
  end.

(** [fileError.code !== 'ENOENT'] *)
Definition code_is_not_ENOENT (e : fs_error) : bool :=
  match code e with
  | Some c => negb (jsstring_eqb c (units "ENOENT"))
  | None => true
  end.

(** What the loader writes to the console: the [console.log] of line 34 with
    the number and the path it interpolates, and the two [console.warn]. *)
Inductive console_entry :=
| Log_loaded (count : nat) (filePath : jsstring)
| Warn_error_reading (fileError : fs_error)
| Warn_failed_to_load (error : value).

Section AdKeywords.

(** The process and its file system: [path.isAbsolute], [path.join],
    [process.cwd()], which may throw, and [fs.promises.readFile(_, 'utf-8')],
    which gives the content of a file or rejects with an error. *)
Variable isAbsolute : jsstring -> bool.
Variable join : jsstring -> jsstring -> jsstring.
Variable cwd : completion jsstring.
Variable readFile : jsstring -> fs_error + jsstring.
Variable env : environment.

(** Lines 27-29. *)
Definition resolve_keywords_file (keywordsFile : jsstring) : completion jsstring :=
  if isAbsolute keywordsFile then Normal keywordsFile
  else (dir <- cwd ;; Normal (join dir keywordsFile)).

(** The inner [try] / [catch], lines 31-40, entered with [keywords] empty:
    the keywords and the console lines it leaves. *)
Definition read_keywords_file (filePath : jsstring) : list jsstring * list console_entry :=
  match readFile filePath with
  | inr content =>
      let keywords := parse_keywords content in
      (keywords, [Log_loaded (length keywords) filePath])
  | inl fileError =>
      ([], if code_is_not_ENOENT fileError then [Warn_error_reading fileError] else [])
  end.

(** Lines 44-49. *)
Definition env_fallback (keywords : list jsstring) : list jsstring :=
  if Nat.eqb (length keywords) 0 then
    let envKeywords := js_or (env_value (AD_KEYWORDS env))
                             (env_value (NEXT_PUBLIC_AD_KEYWORDS env)) in
    if ToBoolean envKeywords then
      match envKeywords with
      | VString s => parse_keywords s
      | _ => keywords
      end
    else keywords
  else keywords.

(** [AdKeywordsWrapper]: the [keywords] handed to [AdKeywordsInjector] and the
    lines written to the console. *)
Definition AdKeywordsWrapper : list jsstring * list console_entry :=
  let keywordsFile := env_value (AD_KEYWORDS_FILE env) in
  match
    (if ToBoolean keywordsFile then
       match keywordsFile with
       | VString file =>
           filePath <- resolve_keywords_file file ;;
           Normal (read_keywords_file filePath)
       | _ => Normal ([], [])
       end
     else Normal ([], []))
  with
  | Normal (keywords, out) => (env_fallback keywords, out)
  | Throw error => ([], [Warn_failed_to_load error])
  end.

End AdKeywords.

Definition no_separator (k : jsstring) : bool :=
  forallb (fun x => negb (is_separator x)) k.

(** A keyword in the form the loader produces: not empty, no white space at
    either end, no separator inside. *)
Definition is_keyword (k : jsstring) : bool :=
  match k with
  | [] => false
  | c :: _ =>
      negb (is_trimmed_away c) && negb (is_trimmed_away (List.last k c))
      && forallb (fun x => negb (is_separator x)) k
  end.

(** The keywords written one per field, with commas. *)
Fixpoint join_keywords (ks : list jsstring) : jsstring :=
  match ks with
  | [] => []
  | [k] => k
  | k :: more => k ++ 44 :: join_keywords more
  end.

(** ** The scroll script, lines 129-151 *)

Module Scroll.

(** The variables of the script and the part of the page it acts on. *)
Record state := {
  scrolling : bool;               (* [body.classList] contains ['scrolling'] *)
  scrollTimer : option nat;       (* [undefined], or the id of a timeout *)
  ticking : bool;
  frame_requests : nat;           (* callbacks given to [requestAnimationFrame]
                                     that have not run yet *)
  timeouts : list (nat * N);      (* pending timeouts of the script: id, due time *)
  next_timeout : nat;             (* the id the next [setTimeout] returns *)
  clock : N                       (* milliseconds *)
}.

(** The script has just run: lines 130-131 and 141-150. *)
Definition start (first_id : nat) (t : N) : state :=
  {| scrolling := false; scrollTimer := None; ticking := false;
     frame_requests := 0; timeouts := []; next_timeout := first_id; clock := t |}.

(** [clearTimeout(id)]: nothing happens when [id] is [undefined] or names no
    pending timeout. *)
Definition clearTimeout (id : option nat) (s : state) : state :=
  match id with
  | None => s
  | Some i =>
      {| scrolling := scrolling s; scrollTimer := scrollTimer s; ticking := ticking s;
         frame_requests := frame_requests s;
         timeouts := List.filter (fun t => negb (Nat.eqb (fst t) i)) (timeouts s);
         next_timeout := next_timeout s; clock := clock s |}
  end.

(** [handleScroll], lines 133-139: [scrollTimer = setTimeout(..., 150)] takes
    a fresh id. *)
Definition handleScroll (s : state) : state :=
  let s1 := clearTimeout (scrollTimer s) s in
  {| scrolling := true;
     scrollTimer := Some (next_timeout s1);
     ticking := ticking s1;
     frame_requests := frame_requests s1;
     timeouts := timeouts s1 ++ [(next_timeout s1, clock s1 + 150)];
     next_timeout := S (next_timeout s1);
     clock := clock s1 |}.

(** The callback of the timeout, line 137. *)
Definition remove_scrolling (s : state) : state :=
  {| scrolling := false; scrollTimer := scrollTimer s; ticking := ticking s;
     frame_requests := frame_requests s; timeouts := timeouts s;
     next_timeout := next_timeout s; clock := clock s |}.

(** The callback given to [requestAnimationFrame], lines 144-147. *)
Definition frame_callback (s : state) : state :=
  let s1 := handleScroll s in
  {| scrolling := scrolling s1; scrollTimer := scrollTimer s1; ticking := false;
     frame_requests := frame_requests s1; timeouts := timeouts s1;
     next_timeout := next_timeout s1; clock := clock s1 |}.

(** The listener of the [scroll] event, lines 142-150. *)
Definition on_scroll (s : state) : state :=
  if negb (ticking s) then
    {| scrolling := scrolling s; scrollTimer := scrollTimer s; ticking := true;
       frame_requests := S (frame_requests s); timeouts := timeouts s;
       next_timeout := next_timeout s; clock := clock s |}
  else s.

(** The browser renders a frame: the callbacks requested so far run, each
    once. *)
Definition animation_frame (s : state) : state :=
  Nat.iter (frame_requests s) frame_callback
    {| scrolling := scrolling s; scrollTimer := scrollTimer s; ticking := ticking s;
       frame_requests := 0; timeouts := timeouts s;
       next_timeout := next_timeout s; clock := clock s |}.

(** The first pending timeout that is due, and the others. *)
Fixpoint take_due (now : N) (ts : list (nat * N)) : option ((nat * N) * list (nat * N)) :=
  match ts with
  | [] => None
  | t :: rest =>
      if snd t <=? now then Some (t, rest)
      else
        match take_due now rest with
        | Some (d, rest') => Some (d, t :: rest')
        | None => None
        end
  end.

(** The event loop runs a timeout that is due, if there is one. *)
Definition run_timeout (s : state) : state :=
  match take_due (clock s) (timeouts s) with
  | None => s
  | Some (_, rest) =>
      remove_scrolling
        {| scrolling := scrolling s; scrollTimer := scrollTimer s; ticking := ticking s;
           frame_requests := frame_requests s; timeouts := rest;
           next_timeout := next_timeout s; clock := clock s |}
  end.

Definition elapse (d : N) (s : state) : state :=
  {| scrolling := scrolling s; scrollTimer := scrollTimer s; ticking := ticking s;
     frame_requests := frame_requests s; timeouts := timeouts s;
     next_timeout := next_timeout s; clock := clock s + d |}.

Inductive event :=
| ScrollEvent
| AnimationFrame
| Timeout
| Elapse (d : N).

Definition step (s : state) (e : event) : state :=
  match e with
  | ScrollEvent => on_scroll s
  | AnimationFrame => animation_frame s
  | Timeout => run_timeout s
  | Elapse d => elapse d s
  end.

Definition run (es : list event) (s : state) : state := fold_left step es s.

(** Time that passes during a sequence of events. *)
Fixpoint elapsed (es : list event) : N :=
  match es with
  | [] => 0
  | Elapse d :: more => d + elapsed more
  | _ :: more => elapsed more
  end.

(** What holds of the script at every moment: at most one frame request,
    pending exactly while [ticking]; at most one timeout, the one named by
    [scrollTimer], due within 150 ms, pending exactly while the class is on
    the body. *)
Definition one_timeout (s : state) : Prop :=
  (scrolling s = false /\ timeouts s = [])
  \/ (scrolling s = true
      /\ exists id due, timeouts s = [(id, due)] /\ scrollTimer s = Some id
                        /\ due <= clock s + 150).

Definition settled (s : state) : Prop :=
  frame_requests s = (if ticking s then 1 else 0)%nat /\ one_timeout s.

End Scroll.

(** Number of [scroll] events and of rendered frames in a sequence of events. *)
Definition scroll_events (es : list Scroll.event) : nat :=
  length (List.filter (fun e => match e with Scroll.ScrollEvent => true | _ => false end) es).

Definition rendered_frames (es : list Scroll.event) : nat :=
  length (List.filter (fun e => match e with Scroll.AnimationFrame => true | _ => false end) es).

(** A sample process: POSIX paths, the working directory [/app], and one
    file, [/app/keywords.txt], with CRLF line ends. *)
Definition sample_isAbsolute (path : jsstring) : bool :=
  match path with
  | 47 :: _ => true
  | _ => false
  end.

Definition sample_join (dir file : jsstring) : jsstring := dir ++ 47 :: file.

Definition sample_cwd : completion jsstring := Normal (units "/app").

Definition sample_content : jsstring :=
  units "ads, promo " ++ [13; 10] ++ units "banner" ++ [13; 10].

Definition sample_readFile (path : jsstring) : fs_error + jsstring :=
  if jsstring_eqb path (units "/app/keywords.txt") then inr sample_content
  else inl {| code := Some (units "ENOENT") |}.

Definition sample_env : environment :=
  {| AD_KEYWORDS_FILE := Some (units "keywords.txt");
     AD_KEYWORDS := Some (units "popup");
     NEXT_PUBLIC_AD_KEYWORDS := None |}.

(** * Properties *)

(** ** Arithmetic of the escapes *)

Ltac nlia := zify; Z.to_euclidean_division_equations; lia.

(** Settles the comparisons of the goal whose outcome the context decides. *)
Ltac cmp :=
  repeat match goal with
         | |- context [N.ltb ?a ?b] =>
             first [ replace (N.ltb a b) with true by (symmetry; apply N.ltb_lt; nlia)
                   | replace (N.ltb a b) with false by (symmetry; apply N.ltb_ge; nlia) ]
         | |- context [N.leb ?a ?b] =>
             first [ replace (N.leb a b) with true by (symmetry; apply N.leb_le; nlia)
                   | replace (N.leb a b) with false by (symmetry; apply N.leb_gt; nlia) ]
         | |- context [N.eqb ?a ?b] =>
             first [ replace (N.eqb a b) with true by (symmetry; apply N.eqb_eq; nlia)
                   | replace (N.eqb a b) with false by (symmetry; apply N.eqb_neq; nlia) ]
         end;
  repeat match goal with
         | |- context [N.ltb ?a ?b] => destruct (N.ltb_spec a b)
         | |- context [N.leb ?a ?b] => destruct (N.leb_spec a b)
         | |- context [N.eqb ?a ?b] => destruct (N.eqb_spec a b)
         end;
  cbn [andb orb negb]; try reflexivity; try discriminate; try nlia.

Lemma hex_value_hex_digit d : d < 16 -> hex_value (hex_digit d) = Some d.
Proof.
  intros Hd. unfold hex_value, hex_digit.
  destruct (N.ltb_spec d 10).
  - assert ((48 <=? 48 + d) && (48 + d <=? 57) = true) as -> by cmp.
    f_equal. lia.
  - assert ((48 <=? 55 + d) && (55 + d <=? 57) = false) as -> by cmp.
    assert ((65 <=? 55 + d) && (55 + d <=? 70) = true) as -> by cmp.
    f_equal. lia.
Qed.

Lemma ParseHexOctet_escape B tail :
  B < 256 ->
  ParseHexOctet (hex_digit (B / 16) :: hex_digit (B mod 16) :: tail) = Some B.
Proof.
  intros HB. unfold ParseHexOctet.
  rewrite !hex_value_hex_digit by nlia. f_equal. nlia.
Qed.

Lemma length_escapes octs :
  length (flat_map percent_escape octs) = (3 * length octs)%nat.
Proof. induction octs as [|B octs IH]; simpl; [reflexivity | rewrite IH; lia]. Qed.

Lemma continuation_octets_escapes octs tail :
  Forall octet octs ->
  continuation_octets (length octs) (flat_map percent_escape octs ++ tail) = Some octs.
Proof.
  induction 1 as [|B octs HB _ IH]; [reflexivity|].
  cbn [length flat_map continuation_octets percent_escape app].
  rewrite N.eqb_refl, ParseHexOctet_escape by exact HB.
  cbn [skipn]. rewrite skipn_O, IH. reflexivity.
Qed.

Lemma Decode_skip set p r : Decode set (length p) (p ++ r) = Decode set 0 r.
Proof. induction p as [|c p IH]; [reflexivity | exact IH]. Qed.

Lemma Decode_percent set rest :
  Decode set 0 (percent :: rest) =
  match ParseHexOctet rest with
  | None => Throw (VNativeError URIError)
  | Some B =>
      match leading_ones B with
      | 0%nat =>
          let Str := if in_set B set then percent :: firstn 2 rest else [B] in
          R <- Decode set 2 rest ;; Normal (Str ++ R)
      | (2 | 3 | 4)%nat as n =>
          match continuation_octets (n - 1) (skipn 2 rest) with
          | None => Throw (VNativeError URIError)
          | Some octets =>
              match utf8_decode (B :: octets) with
              | None => Throw (VNativeError URIError)
              | Some V =>
                  R <- Decode set (3 * n - 1) rest ;;
                  Normal (UTF16EncodeCodePoint V ++ R)
              end
          end
      | _ => Throw (VNativeError URIError)
      end
  end.
Proof. reflexivity. Qed.

Lemma Decode_literal set c rest :
  c <> percent ->
  Decode set 0 (c :: rest) = (R <- Decode set 0 rest ;; Normal (c :: R)).
Proof.
  intros Hc. cbn [Decode]. destruct (N.eqb_spec c percent); [contradiction | reflexivity].
Qed.

(** An escaped ASCII character that is not to be preserved decodes to itself. *)
Lemma Decode_escape_ascii set cp tail :
  cp < 0x80 -> in_set cp set = false ->
  Decode set 0 (percent_escape cp ++ tail) =
  (R <- Decode set 0 tail ;; Normal (cp :: R)).
Proof.
  intros Hcp Hset. unfold percent_escape. cbn [app].
  rewrite Decode_percent, ParseHexOctet_escape by (unfold octet; lia).
  assert (leading_ones cp = 0%nat) as -> by (unfold leading_ones; cmp).
  rewrite Hset. reflexivity.
Qed.

(** The escapes of a well-formed sequence of two to four octets decode to
    its code point. *)
Lemma Decode_escape_octets set B octs V tail :
  octet B -> Forall octet octs ->
  leading_ones B = S (length octs) -> (1 <= length octs <= 3)%nat ->
  utf8_decode (B :: octs) = Some V ->
  Decode set 0 (flat_map percent_escape (B :: octs) ++ tail) =
  (R <- Decode set 0 tail ;; Normal (UTF16EncodeCodePoint V ++ R)).
Proof.
  intros HB Hocts Hn Hlen HV.
  cbn [flat_map percent_escape app].
  rewrite Decode_percent, ParseHexOctet_escape, Hn by exact HB.
  set (h := hex_digit (B / 16)). set (l := hex_digit (B mod 16)).
  assert (Hskip : Decode set (3 * S (length octs) - 1)
                    (h :: l :: flat_map percent_escape octs ++ tail)
                  = Decode set 0 tail).
  { replace (3 * S (length octs) - 1)%nat
      with (length (h :: l :: flat_map percent_escape octs))
      by (cbn [length]; rewrite length_escapes; lia).
    exact (Decode_skip set (h :: l :: flat_map percent_escape octs) tail). }
  assert (Hcont : continuation_octets (S (length octs) - 1)
                    (skipn 2 (h :: l :: flat_map percent_escape octs ++ tail))
                  = Some octs).
  { replace (S (length octs) - 1)%nat with (length octs) by lia.
    cbn [skipn]. rewrite skipn_O. apply continuation_octets_escapes, Hocts. }
  destruct (length octs) as [|[|[|[|k]]]] eqn:Hk; try lia; cbv beta match zeta;
    rewrite Hcont, HV, Hskip; reflexivity.
Qed.

Lemma utf8_encode_shape cp :
  scalar cp -> 0x80 <= cp ->
  exists B octs,
    utf8_encode cp = B :: octs /\ octet B /\ Forall octet octs /\
    leading_ones B = S (length octs) /\ (1 <= length octs <= 3)%nat /\
    utf8_decode (B :: octs) = Some cp.
Proof.
  intros [Hmax Hsur] Hmin. unfold utf8_encode.
  destruct (N.ltb_spec cp 0x80); [lia|].
  destruct (N.ltb_spec cp 0x800); [|destruct (N.ltb_spec cp 0x10000)].
  - eexists _, _. split; [reflexivity|]. unfold octet.
    repeat split; try (repeat constructor; nlia); try (cbn [length]; lia).
    + unfold leading_ones. cbn [length]. cmp.
    + unfold utf8_decode, is_continuation.
      replace ((0xC0 + cp / 64 - 0xC0) * 64 + (0x80 + cp mod 64 - 0x80)) with cp by nlia.
      assert ((0x80 <=? 0x80 + cp mod 64) && (0x80 + cp mod 64 <=? 0xBF)
              && (0x80 <=? cp) = true) as -> by cmp.
      reflexivity.
  - eexists _, _. split; [reflexivity|]. unfold octet.
    repeat split; try (repeat constructor; nlia); try (cbn [length]; lia).
    + unfold leading_ones. cbn [length]. cmp.
    + unfold utf8_decode, is_continuation.
      replace ((0xE0 + cp / 4096 - 0xE0) * 4096
               + (0x80 + (cp / 64) mod 64 - 0x80) * 64
               + (0x80 + cp mod 64 - 0x80)) with cp by nlia.
      assert ((0x80 <=? 0x80 + (cp / 64) mod 64) && (0x80 + (cp / 64) mod 64 <=? 0xBF)
              && ((0x80 <=? 0x80 + cp mod 64) && (0x80 + cp mod 64 <=? 0xBF))
              && (0x800 <=? cp)
              && negb ((0xD800 <=? cp) && (cp <=? 0xDFFF)) = true) as -> by cmp.
      reflexivity.
  - eexists _, _. split; [reflexivity|]. unfold octet.
    repeat split; try (repeat constructor; nlia); try (cbn [length]; lia).
    + unfold leading_ones. cbn [length]. cmp.
    + unfold utf8_decode, is_continuation.
      replace ((0xF0 + cp / 262144 - 0xF0) * 262144
               + (0x80 + (cp / 4096) mod 64 - 0x80) * 4096
               + (0x80 + (cp / 64) mod 64 - 0x80) * 64
               + (0x80 + cp mod 64 - 0x80)) with cp by nlia.
      assert ((0x80 <=? 0x80 + (cp / 4096) mod 64)
              && (0x80 + (cp / 4096) mod 64 <=? 0xBF)
              && ((0x80 <=? 0x80 + (cp / 64) mod 64) && (0x80 + (cp / 64) mod 64 <=? 0xBF))
              && ((0x80 <=? 0x80 + cp mod 64) && (0x80 + cp mod 64 <=? 0xBF))
              && (0x10000 <=? cp) && (cp <=? 0x10FFFF) = true) as -> by cmp.
      reflexivity.
Qed.

Lemma UTF16EncodeCodePoint_unit cp : cp < 0x10000 -> UTF16EncodeCodePoint cp = [cp].
Proof. intros H. unfold UTF16EncodeCodePoint. cmp. Qed.

Lemma UTF16EncodeCodePoint_pair lead trail :
  is_leading_surrogate lead = true -> is_trailing_surrogate trail = true ->
  UTF16EncodeCodePoint (UTF16SurrogatePairToCodePoint lead trail) = [lead; trail].
Proof.
  unfold is_leading_surrogate, is_trailing_surrogate.
  intros [H1 H2]%andb_prop [H3 H4]%andb_prop.
  apply N.leb_le in H1, H2, H3, H4.
  unfold UTF16EncodeCodePoint, UTF16SurrogatePairToCodePoint.
  assert (((lead - 0xD800) * 0x400 + (trail - 0xDC00) + 0x10000 <=? 0xFFFF) = false)
    as -> by (apply N.leb_gt; lia).
  f_equal; [|f_equal]; nlia.
Qed.

Lemma scalar_pair lead trail :
  is_leading_surrogate lead = true -> is_trailing_surrogate trail = true ->
  scalar (UTF16SurrogatePairToCodePoint lead trail)
  /\ 0x10000 <= UTF16SurrogatePairToCodePoint lead trail.
Proof.
  unfold is_leading_surrogate, is_trailing_surrogate.
  intros [H1 H2]%andb_prop [H3 H4]%andb_prop.
  apply N.leb_le in H1, H2, H3, H4.
  unfold scalar, UTF16SurrogatePairToCodePoint. lia.
Qed.

Lemma scalar_unit c :
  code_unit_ok c ->
  is_leading_surrogate c = false -> is_trailing_surrogate c = false -> scalar c.
Proof.
  unfold code_unit_ok, is_leading_surrogate, is_trailing_surrogate, scalar.
  intros Hc H1 H2. split; [lia|]. intros [Ha Hb].
  apply andb_false_iff in H1, H2. rewrite !N.leb_gt in H1, H2. lia.
Qed.

Lemma Decode_escape_code_point set cp tail :
  scalar cp -> (cp < 0x80 -> in_set cp set = false) ->
  Decode set 0 (escape_code_point cp ++ tail) =
  (R <- Decode set 0 tail ;; Normal (UTF16EncodeCodePoint cp ++ R)).
Proof.
  intros Hcp Hset. unfold escape_code_point.
  destruct (N.ltb_spec cp 0x80) as [Hlt|Hge].
  - unfold utf8_encode. rewrite (proj2 (N.ltb_lt _ _) Hlt).
    cbn [flat_map]. rewrite app_nil_r, Decode_escape_ascii by auto.
    rewrite UTF16EncodeCodePoint_unit by lia. reflexivity.
  - destruct (utf8_encode_shape cp Hcp Hge) as (B & octs & -> & HB & Hocts & Hn & Hlen & HV).
    apply Decode_escape_octets; assumption.
Qed.

(** *** The character sets of [encodeURI] and [decodeURI] *)

Lemma in_set_app c l1 l2 : in_set c (l1 ++ l2) = in_set c l1 || in_set c l2.
Proof. apply existsb_app. Qed.

Lemma unescaped_not_percent c : in_set c encodeURI_unescaped = true -> c <> percent.
Proof. intros H ->. vm_compute in H. discriminate. Qed.

Lemma escaped_not_reserved c :
  in_set c encodeURI_unescaped = false -> in_set c decodeURI_reserved = false.
Proof.
  unfold encodeURI_unescaped, decodeURI_reserved. rewrite !in_set_app.
  destruct (in_set c uriReserved), (in_set c uriUnescaped), (in_set c (units "#"));
    cbn; congruence.
Qed.

(** [decodeURI] undoes [encodeURI]. *)
Lemma decodeURI_encodeURI s :
  jsstring_ok s -> forall u, encodeURI s = Normal u -> decodeURI u = Normal s.
Proof.
  unfold encodeURI, decodeURI.
  remember (length s) as n eqn:Hn.
  revert s Hn. induction n as [n IH] using lt_wf_ind. intros s Hn Hok u.
  destruct s as [|C rest]; [intros [= <-]; reflexivity|].
  apply Forall_cons_1 in Hok as [HC Hrest].
  cbn [Encode].
  destruct (in_set C encodeURI_unescaped) eqn:Hset.
  { destruct (Encode encodeURI_unescaped rest) as [R|] eqn:HR; [|discriminate].
    intros [= <-]. rewrite Decode_literal by (apply unescaped_not_percent, Hset).
    rewrite (IH (length rest)) with (s := rest) (u := R); cbn in *; auto; lia. }
  destruct (is_leading_surrogate C) eqn:Hlead.
  { destruct rest as [|C2 rest2]; [discriminate|].
    destruct (is_trailing_surrogate C2) eqn:Htrail; [|discriminate].
    apply Forall_cons_1 in Hrest as [HC2 Hrest2].
    destruct (Encode encodeURI_unescaped rest2) as [R|] eqn:HR; [|discriminate].
    intros [= <-].
    destruct (scalar_pair C C2 Hlead Htrail) as [Hsc Hbig].
    rewrite Decode_escape_code_point by (auto; lia).
    rewrite (IH (length rest2)) with (s := rest2) (u := R); cbn in *; auto; try lia.
    rewrite UTF16EncodeCodePoint_pair by assumption. reflexivity. }
  destruct (is_trailing_surrogate C) eqn:Htrail; [discriminate|].
  destruct (Encode encodeURI_unescaped rest) as [R|] eqn:HR; [|discriminate].
  intros [= <-].
  rewrite Decode_escape_code_point
    by (auto using scalar_unit, escaped_not_reserved).
  rewrite (IH (length rest)) with (s := rest) (u := R); cbn in *; auto; try lia.
  rewrite UTF16EncodeCodePoint_unit by exact HC. reflexivity.
Qed.

(** [encodeURI] copies text made of unescaped characters. *)
Lemma encodeURI_unescaped_text s :
  Forall (fun c => in_set c encodeURI_unescaped = true) s -> encodeURI s = Normal s.
Proof.
  unfold encodeURI. induction 1 as [|c s Hc _ IH]; [reflexivity|].
  cbn [Encode]. rewrite Hc, IH. reflexivity.
Qed.

Lemma unescaped_is_ascii c : in_set c encodeURI_unescaped = true -> c < 0x80.
Proof.
  intros H. destruct (N.ltb_spec c 0x80) as [Hlt|Hge]; [exact Hlt|].
  exfalso. apply existsb_exists in H as (x & Hin & Heq).
  apply N.eqb_eq in Heq. subst x.
  assert (Hall : forallb (fun x => x <? 0x80) encodeURI_unescaped = true) by reflexivity.
  rewrite forallb_forall in Hall. apply Hall, N.ltb_lt in Hin. lia.
Qed.

Lemma unescaped_text_ok s :
  Forall (fun c => in_set c encodeURI_unescaped = true) s -> jsstring_ok s.
Proof.
  induction 1 as [|c s Hc _ IH]; constructor; [|exact IH].
  apply unescaped_is_ascii in Hc. unfold code_unit_ok. lia.
Qed.

(** Some values of the two built-ins. *)
Example encodeURI_space : encodeURI (units "/a b") = Normal (units "/a%20b").
Proof. reflexivity. Qed.

Example encodeURI_brackets : encodeURI (units "[%]") = Normal (units "%5B%25%5D").
Proof. reflexivity. Qed.

Example encodeURI_lone_surrogate : encodeURI [0xD83D] = Throw (VNativeError URIError).
Proof. reflexivity. Qed.

Example encodeURI_surrogate_pair :
  encodeURI [0xD83D; 0xDE00] = Normal (units "%F0%9F%98%80").
Proof. reflexivity. Qed.

Example decodeURI_keeps_reserved :
  decodeURI (units "%41%2f%23%25") = Normal (units "A%2f%23%").
Proof. reflexivity. Qed.

Example decodeURI_three_octets : decodeURI (units "%e4%B8%ad") = Normal [0x4E2D].
Proof. reflexivity. Qed.

Example decodeURI_four_octets : decodeURI (units "%F0%9F%98%80") = Normal [0xD83D; 0xDE00].
Proof. reflexivity. Qed.

Example decodeURI_rejects :
  map decodeURI [units "%"; units "%4"; units "%zz"; units "%80"; units "%C0%80";
                 units "%E4%B8"; units "%E4%B8A"; units "%ED%A0%80";
                 units "%F4%90%80%80"; units "%F8%88%80%80%80"]
  = repeat (Throw (VNativeError URIError)) 10.
Proof. reflexivity. Qed.

(** ** The URL Transform Function *)

Section Transform.

Variable t2s : jsstring -> completion jsstring.

Lemma convertUrl_string c s :
  convertUrl t2s (VString (c :: s)) =
  try_catch
    (decoded <- decodeURI (c :: s) ;;
     simplified <- t2s decoded ;;
     encoded <- encodeURI simplified ;;
     Normal (VString encoded))
    (fun _ => Normal (VString (c :: s))).
Proof. reflexivity. Qed.

Lemma convertUrl_not_string url :
  typeof url <> TString -> convertUrl t2s url = Normal url.
Proof.
  intros Hty. unfold convertUrl.
  destruct url; try reflexivity; try (destruct (ToBoolean _); reflexivity).
  contradiction Hty. reflexivity.
Qed.

Lemma convertUrl_empty : convertUrl t2s (VString []) = Normal (VString []).
Proof. reflexivity. Qed.

(** C1.  [convertUrl] is the function of section 4.2 of the specification:
    an input that is not a string, or is empty or absent, comes back
    unchanged; otherwise the result is [encodeURI] of [ChineseS2T.t2s] of
    [decodeURI] of the input, and the input itself as soon as one of the
    three steps raises an exception. *)
Theorem convertUrl_meets_spec (url : value) :
  convertUrl t2s url = convertUrl_spec t2s url.
Proof.
  destruct url as [| | | | | | [|c s] | | | | | | |];
    try (apply convertUrl_not_string; discriminate);
    try reflexivity.
  rewrite convertUrl_string. unfold convertUrl_spec.
  destruct (decodeURI (c :: s)) as [decoded|]; [|reflexivity].
  cbn [bind try_catch].
  destruct (t2s decoded) as [simplified|]; [|reflexivity].
  cbn [bind try_catch].
  destruct (encodeURI simplified); reflexivity.
Qed.

Lemma convertUrl_returns url : convertUrl t2s url = Normal (converted t2s url).
Proof.
  unfold converted.
  destruct url as [| | | | | | [|c s] | | | | | | |]; try reflexivity;
    try (rewrite convertUrl_not_string by discriminate; reflexivity).
  rewrite convertUrl_string.
  destruct (decodeURI (c :: s)) as [decoded|]; [|reflexivity].
  cbn [bind try_catch].
  destruct (t2s decoded) as [simplified|]; [|reflexivity].
  cbn [bind try_catch].
  destruct (encodeURI simplified); reflexivity.
Qed.

(** C7, amended.  [convertUrl] never throws; it returns a value of the type
    of its input, which is the input itself or the string produced by the
    three steps.  A string input therefore gives a string, and an input
    that is [undefined] or [null] is handed back as it is. *)
Theorem convertUrl_total (url : value) :
  exists v,
    convertUrl t2s url = Normal v /\
    typeof v = typeof url /\
    (v = url \/
     exists s decoded simplified encoded,
       url = VString s /\ decodeURI s = Normal decoded /\
       t2s decoded = Normal simplified /\
       encodeURI simplified = Normal encoded /\ v = VString encoded).
Proof.
  destruct url as [| | | | | | [|c s] | | | | | | |];
    try (eexists; split;
         [apply convertUrl_not_string; discriminate
         | split; [reflexivity | left; reflexivity]]).
  { eexists; split; [reflexivity | split; [reflexivity | left; reflexivity]]. }
  rewrite convertUrl_string.
  destruct (decodeURI (c :: s)) as [decoded|] eqn:Hd;
    [|eexists; split; [reflexivity | split; [reflexivity | left; reflexivity]]].
  cbn [bind try_catch].
  destruct (t2s decoded) as [simplified|] eqn:Ht;
    [|eexists; split; [reflexivity | split; [reflexivity | left; reflexivity]]].
  cbn [bind try_catch].
  destruct (encodeURI simplified) as [encoded|] eqn:He;
    [|eexists; split; [reflexivity | split; [reflexivity | left; reflexivity]]].
  eexists; split; [reflexivity | split; [reflexivity | right]].
  exists (c :: s), decoded, simplified, encoded. auto.
Qed.

(** C2, amended.  [decodeURI] is a left inverse of [encodeURI], not the
    other way round: a URL that is already in the form [encodeURI]
    produces, and on whose decoding the library changes nothing, is
    returned unchanged. *)
Theorem convertUrl_fixes_canonical (w u : jsstring) :
  jsstring_ok w ->
  encodeURI w = Normal u ->
  t2s w = Normal w ->
  convertUrl t2s (VString u) = Normal (VString u).
Proof.
  intros Hok Henc Hid.
  pose proof (decodeURI_encodeURI w Hok u Henc) as Hdec.
  destruct u as [|c u]; [reflexivity|].
  rewrite convertUrl_string, Hdec. cbn [bind].
  rewrite Hid. cbn [bind]. rewrite Henc. reflexivity.
Qed.

(** A URL written with unescaped characters only, which the library does not
    change, is returned unchanged. *)
Lemma convertUrl_fixes_unescaped_text (u : jsstring) :
  Forall (fun c => in_set c encodeURI_unescaped = true) u ->
  t2s u = Normal u ->
  convertUrl t2s (VString u) = Normal (VString u).
Proof.
  intros Hu Hid.
  pose proof (encodeURI_unescaped_text u Hu) as Henc.
  pose proof (unescaped_text_ok u Hu) as Hok.
  pose proof (decodeURI_encodeURI u Hok u Henc) as Hdec.
  destruct u as [|c u]; [reflexivity|].
  rewrite convertUrl_string, Hdec. cbn [bind].
  rewrite Hid. cbn [bind]. rewrite Henc. reflexivity.
Qed.

(** Conversely, a URL that comes back unchanged after the three steps is the
    [encodeURI] form of its decoding. *)
Lemma convertUrl_fixed_is_canonical (u decoded encoded : jsstring) :
  decodeURI u = Normal decoded ->
  t2s decoded = Normal decoded ->
  encodeURI decoded = Normal encoded ->
  convertUrl t2s (VString u) = Normal (VString u) ->
  u = encoded.
Proof.
  intros Hdec Hid Henc.
  destruct u as [|c u].
  - cbn in Hdec. injection Hdec as <-. cbn in Henc. injection Henc as <-. reflexivity.
  - rewrite convertUrl_string, Hdec. cbn [bind]. rewrite Hid. cbn [bind].
    rewrite Henc. cbn [bind try_catch]. intros H. injection H as H. symmetry. exact H.
Qed.

End Transform.

(** ** The four wrappers *)

Section Wrappers.

Variable t2s : jsstring -> completion jsstring.
Variable host : Type.
Variable native : nat -> value -> list value -> host -> completion value * host.

Lemma rewrite_url v :
  (if jstype_eqb (typeof v) TString then convertUrl t2s v else Normal v)
  = Normal (rewritten t2s v).
Proof. destruct v; try reflexivity. apply convertUrl_returns. Qed.

Lemma rewrite_first args :
  (if jstype_eqb (typeof (arg 0 args)) TString
   then (v <- convertUrl t2s (arg 0 args) ;; Normal (<[0%nat := v]> args))
   else Normal args)
  = Normal (delegated_arguments t2s Fetch args).
Proof.
  destruct args as [|a options]; [reflexivity|].
  change (arg 0 (a :: options)) with a.
  destruct a; try reflexivity.
  cbn [typeof jstype_eqb]. rewrite convertUrl_returns. reflexivity.
Qed.

(** Each wrapper amounts to one call of the implementation it captured. *)
Lemma invoke_wrapper d original thisArg args w :
  invoke t2s host native (wrapper d original) thisArg args w =
  (outcome d (fst (invoke t2s host native original (this_binding thisArg)
                     (delegated_arguments t2s d args) w)),
   snd (invoke t2s host native original (this_binding thisArg)
          (delegated_arguments t2s d args) w)).
Proof.
  destruct d; cbn [wrapper invoke outcome].
  - rewrite rewrite_first. reflexivity.
  - rewrite rewrite_url. apply surjective_pairing.
  - rewrite rewrite_url. apply surjective_pairing.
  - rewrite rewrite_url. apply surjective_pairing.
Qed.

Lemma invoke_native id thisArg args w :
  calls (snd (invoke t2s host native (Native id) thisArg args w)) =
  calls w ++ [{| callee := id; receiver := thisArg; arguments := args |}].
Proof. cbn [invoke]. destruct (native id thisArg args (host_state w)). reflexivity. Qed.

Lemma this_binding_idempotent v : this_binding (this_binding v) = this_binding v.
Proof. destruct v; reflexivity. Qed.

(** C3, amended.  The fetch wrapper replaces a string first argument by
    [convertUrl] of it and alters no other argument; when the first
    argument is not a string, or there is none, the original receives the
    argument list as it is.  In the scenario of the specification the
    original is reached with the percent-encoded form
    [/search?q=%E7%B9%81%E4%BD%93%E5%AD%97] of the converted URL. *)
Theorem fetch_wrapper_rewrites_first_argument
    (originalFetch : func) (thisArg : value) (args : list value) (w : world host) :
  let args' := match args with
               | VString url :: options => converted t2s (VString url) :: options
               | _ => args
               end in
  invoke t2s host native (FetchWrapper originalFetch) thisArg args w =
    (async_result
       (fst (invoke t2s host native originalFetch (this_binding thisArg) args' w)),
     snd (invoke t2s host native originalFetch (this_binding thisArg) args' w))
  /\ length args' = length args
  /\ (forall i, args' !! S i = args !! S i)
  /\ calls (snd (invoke t2s_sample unit native_quiet (FetchWrapper (Native 0))
                   VUndefined [VString search_traditional] fresh_world))
     = [{| callee := 0; receiver := VGlobal;
           arguments := [VString search_simplified_encoded] |}]
  /\ encodeURI search_simplified = Normal search_simplified_encoded.
Proof.
  cbv zeta. split; [|split; [|split; [|split]]].
  - rewrite (invoke_wrapper Fetch).
    destruct args as [|[] options]; reflexivity.
  - destruct args as [|[] options]; reflexivity.
  - intros i. destruct args as [|[] options]; reflexivity.
  - vm_compute. reflexivity.
  - vm_compute. reflexivity.
Qed.

(** C4, amended.  The open wrapper hands its original the first argument,
    the second one rewritten by [convertUrl] when it is a string, and the
    remaining ones; the pushState and replaceState wrappers hand theirs
    exactly three arguments, the third one rewritten when it is a string.
    An argument that is missing is passed as [undefined]; for a call with
    at least two (open) or exactly three (pushState, replaceState)
    arguments this is the argument list with only the URL position
    changed.  [history.pushState(null, "", "/" U+9801 U+9762)] hands the
    original the percent-encoded [/%E9%A1%B5%E9%9D%A2]. *)
Theorem open_and_history_wrappers_rewrite_url
    (original : func) (thisArg : value) (args : list value) (w : world host) :
  let url' (v : value) := match v with VString _ => converted t2s v | _ => v end in
  invoke t2s host native (OpenWrapper original) thisArg args w =
    invoke t2s host native original (this_binding thisArg)
      (arg 0 args :: url' (arg 1 args) :: drop 2 args) w
  /\ invoke t2s host native (PushStateWrapper original) thisArg args w =
    invoke t2s host native original (this_binding thisArg)
      [arg 0 args; arg 1 args; url' (arg 2 args)] w
  /\ invoke t2s host native (ReplaceStateWrapper original) thisArg args w =
    invoke t2s host native original (this_binding thisArg)
      [arg 0 args; arg 1 args; url' (arg 2 args)] w
  /\ (forall method url rest,
        arg 0 (method :: url :: rest) :: url' (arg 1 (method :: url :: rest))
          :: drop 2 (method :: url :: rest)
        = <[1%nat := url' url]> (method :: url :: rest))
  /\ (forall state unused url,
        [arg 0 [state; unused; url]; arg 1 [state; unused; url];
         url' (arg 2 [state; unused; url])]
        = <[2%nat := url' url]> [state; unused; url])
  /\ calls (snd (invoke t2s_sample unit native_quiet (PushStateWrapper (Native 2))
                   (VObject 0) [VNull; VString []; VString page_traditional]
                   fresh_world))
     = [{| callee := 2; receiver := VObject 0;
           arguments := [VNull; VString []; VString page_simplified_encoded] |}]
  /\ encodeURI page_simplified = Normal page_simplified_encoded.
Proof.
  cbv zeta. repeat split.
  - cbn [invoke]. rewrite rewrite_url. reflexivity.
  - cbn [invoke]. rewrite rewrite_url. reflexivity.
  - cbn [invoke]. rewrite rewrite_url. reflexivity.
Qed.

(** C5.  Every wrapper, on every path, calls the implementation it captured
    exactly once, with the possibly transformed argument list: all the
    wrapper does to the world is what that one call does, and over a host
    implementation exactly one call of it is recorded. *)
Theorem wrapper_delegates_exactly_once
    (d : dispatch_point) (original : func) (id : nat)
    (thisArg : value) (args : list value) (w : world host) :
  snd (invoke t2s host native (wrapper d original) thisArg args w) =
    snd (invoke t2s host native original (this_binding thisArg)
           (delegated_arguments t2s d args) w)
  /\ calls (snd (invoke t2s host native (wrapper d (Native id)) thisArg args w)) =
    calls w ++ [{| callee := id; receiver := this_binding thisArg;
                   arguments := delegated_arguments t2s d args |}].
Proof.
  split.
  - rewrite invoke_wrapper. reflexivity.
  - rewrite invoke_wrapper. cbn [snd]. apply invoke_native.
Qed.

(** C6, amended.  The open, pushState and replaceState wrappers return what
    their original returns and throw what it throws.  The fetch wrapper is
    an [async] function: it always returns a promise, resolved with the
    value its original returns and rejected with the value its original
    throws. *)
Theorem wrapper_outcome
    (original : func) (thisArg : value) (args : list value) (w : world host) :
  fst (invoke t2s host native (OpenWrapper original) thisArg args w) =
    fst (invoke t2s host native original (this_binding thisArg)
           (delegated_arguments t2s Open args) w)
  /\ fst (invoke t2s host native (PushStateWrapper original) thisArg args w) =
    fst (invoke t2s host native original (this_binding thisArg)
           (delegated_arguments t2s PushState args) w)
  /\ fst (invoke t2s host native (ReplaceStateWrapper original) thisArg args w) =
    fst (invoke t2s host native original (this_binding thisArg)
           (delegated_arguments t2s ReplaceState args) w)
  /\ fst (invoke t2s host native (FetchWrapper original) thisArg args w) =
    match fst (invoke t2s host native original (this_binding thisArg)
                 (delegated_arguments t2s Fetch args) w) with
    | Normal v => Normal (VPromiseResolved v)
    | Throw e => Normal (VPromiseRejected e)
    end.
Proof.
  repeat split.
  - rewrite (invoke_wrapper Open). reflexivity.
  - rewrite (invoke_wrapper PushState). reflexivity.
  - rewrite (invoke_wrapper ReplaceState). reflexivity.
  - rewrite (invoke_wrapper Fetch). reflexivity.
Qed.

(** C10, amended.  Every wrapper calls its original with its own [this]
    (fetch through [apply(this, args)], the others through
    [call(this, ...)]).  The script is not in strict mode, so that is the
    receiver of the call when the receiver is an object, the global object
    when the receiver is [undefined] or [null], and a wrapper object when
    it is another primitive. *)
Theorem wrapper_forwards_this
    (d : dispatch_point) (original : func) (id : nat)
    (thisArg : value) (args : list value) (w : world host) :
  let this := if is_object thisArg then thisArg
              else if is_nullish thisArg then VGlobal
              else VBoxed thisArg in
  invoke t2s host native (wrapper d original) thisArg args w =
    (outcome d (fst (invoke t2s host native original this
                       (delegated_arguments t2s d args) w)),
     snd (invoke t2s host native original this (delegated_arguments t2s d args) w))
  /\ exists args',
      calls (snd (invoke t2s host native (wrapper d (Native id)) thisArg args w)) =
      calls w ++ [{| callee := id; receiver := this; arguments := args' |}].
Proof.
  cbv zeta.
  replace (if is_object thisArg then thisArg
           else if is_nullish thisArg then VGlobal else VBoxed thisArg)
    with (this_binding thisArg) by (destruct thisArg; reflexivity).
  split.
  - apply invoke_wrapper.
  - eexists. rewrite invoke_wrapper. cbn [snd]. apply invoke_native.
Qed.

End Wrappers.

(** ** The dependency gate and the installer *)

Section Gate.

Lemma initS2T_reschedules p :
  ChineseS2T_undefined p = true -> timers p = [] -> initS2T p = waiting p (now p).
Proof.
  intros Hu Ht. unfold initS2T, setTimeout, waiting. rewrite Hu, Ht. reflexivity.
Qed.

Lemma initS2T_installs p : ChineseS2T_undefined p = false -> initS2T p = install p.
Proof. intros Hu. unfold initS2T. rewrite Hu. reflexivity. Qed.

Lemma fire_waiting p t late :
  ChineseS2T_undefined p = true ->
  fire late (waiting p t) = waiting p (t + 100 + late).
Proof.
  intros Hu. unfold ChineseS2T_undefined in Hu.
  unfold fire, run_callback, initS2T, ChineseS2T_undefined, setTimeout, waiting.
  cbn [timers timer_callback due now ChineseS2T window_fetch XMLHttpRequest_open
       history_pushState history_replaceState console app].
  rewrite Hu.
  replace (N.max t (t + 100) + late) with (t + 100 + late) by lia.
  reflexivity.
Qed.

Lemma run_waiting p lates t :
  ChineseS2T_undefined p = true ->
  run (map Fire lates) (waiting p t) =
  waiting p (t + 100 * N.of_nat (length lates) + total lates).
Proof.
  intros Hu. revert t. induction lates as [|late lates IH]; intros t.
  - cbn [map run fold_left length]. f_equal. cbn. lia.
  - cbn [map run fold_left step]. rewrite fire_waiting by exact Hu.
    fold (run (map Fire lates) (waiting p (t + 100 + late))).
    rewrite IH. f_equal.
    change (total (late :: lates)) with (late + total lates).
    cbn [length]. lia.
Qed.

Lemma run_idle lates p : timers p = [] -> run (map Fire lates) p = p.
Proof.
  intros Ht. induction lates as [|late lates IH]; [reflexivity|].
  cbn [map run fold_left step]. unfold fire. rewrite Ht. exact IH.
Qed.

(** C9.  While [ChineseS2T] is not defined, every run of [initS2T] re-arms
    one timer 100 ms ahead and leaves the four dispatch points and the
    console as they were, however many times the timer fires.  The run of
    [initS2T] that finds the symbol defined replaces all four dispatch
    points by wrappers around the implementations they held, logs the
    notice and arms no timer, so nothing fires any more. *)
Theorem gate_polls_until_defined
    (p : page) (lates : list N) (lib : value) (late : N) :
  ChineseS2T_undefined p = true ->
  timers p = [] ->
  typeof lib <> TUndefined ->
  let q := run (map Fire lates) (initS2T p) in
  let r := fire late (load_library lib q) in
  ((forall d, binding q d = binding p d)
   /\ timers q = [{| timer_callback := InitS2T; due := now q + 100 |}]
   /\ now q = now p + 100 * N.of_nat (length lates) + total lates
   /\ console q = console p)
  /\ ((forall d, binding r d = wrapper d (binding p d))
      /\ timers r = []
      /\ console r = console p ++ [startup_notice]
      /\ (forall lates', run (map Fire lates') r = r)).
Proof.
  intros Hu Ht Hlib q r.
  assert (Hq : q = waiting p (now p + 100 * N.of_nat (length lates) + total lates)).
  { subst q. rewrite initS2T_reschedules by assumption. apply run_waiting, Hu. }
  split.
  - rewrite Hq. repeat split.
  - assert (Hdef : ChineseS2T_undefined (load_library lib q) = false).
    { unfold ChineseS2T_undefined. cbn [load_library ChineseS2T].
      destruct lib; try reflexivity. contradiction Hlib. reflexivity. }
    assert (Hr : timers r = []).
    { subst r. rewrite Hq. unfold fire, initS2T.
      cbn [load_library waiting timers timer_callback run_callback].
      unfold ChineseS2T_undefined. cbn [ChineseS2T].
      destruct lib; try reflexivity. contradiction Hlib. reflexivity. }
    split; [|split; [exact Hr|split]].
    + subst r. rewrite Hq. unfold fire, initS2T.
      cbn [load_library waiting timers timer_callback run_callback].
      unfold ChineseS2T_undefined. cbn [ChineseS2T].
      destruct lib; try (intros []; reflexivity). contradiction Hlib. reflexivity.
    + subst r. rewrite Hq. unfold fire, initS2T.
      cbn [load_library waiting timers timer_callback run_callback].
      unfold ChineseS2T_undefined. cbn [ChineseS2T].
      destruct lib; try reflexivity. contradiction Hlib. reflexivity.
    + intros lates'. apply run_idle, Hr.
Qed.

End Gate.

(** ** Running the installer a second time *)

Section Layers.

Variable t2s : jsstring -> completion jsstring.
Variable host : Type.
Variable native : nat -> value -> list value -> host -> completion value * host.

Lemma install_keeps_library p :
  ChineseS2T_undefined (install p) = ChineseS2T_undefined p.
Proof. reflexivity. Qed.

Lemma binding_install p d : binding (install p) d = wrapper d (binding p d).
Proof. destruct d; reflexivity. Qed.

(** C8, amended.  [initS2T] has no guard against a second run: run twice
    with the library present, it stacks a second wrapper on every dispatch
    point, the second run capturing the wrapper of the first.  One external
    call then goes through both layers, the URL argument through
    [convertUrl] once per layer, and still reaches the implementation
    captured by the first run exactly once. *)
Theorem second_install_stacks_layer
    (p : page) (d : dispatch_point) (id : nat)
    (thisArg : value) (args : list value) (w : world host) :
  ChineseS2T_undefined p = false ->
  let q := initS2T (initS2T p) in
  let args2 := delegated_arguments t2s d (delegated_arguments t2s d args) in
  binding q d = wrapper d (wrapper d (binding p d))
  /\ invoke t2s host native (binding q d) thisArg args w =
     (outcome d (outcome d
        (fst (invoke t2s host native (binding p d) (this_binding thisArg) args2 w))),
      snd (invoke t2s host native (binding p d) (this_binding thisArg) args2 w))
  /\ calls (snd (invoke t2s host native (wrapper d (wrapper d (Native id)))
                   thisArg args w)) =
     calls w ++ [{| callee := id; receiver := this_binding thisArg;
                    arguments := args2 |}].
Proof.
  intros Hdef q args2.
  assert (Hq : binding q d = wrapper d (wrapper d (binding p d))).
  { subst q. rewrite (initS2T_installs p Hdef).
    rewrite initS2T_installs by (rewrite install_keeps_library; exact Hdef).
    rewrite !binding_install. reflexivity. }
  split; [exact Hq|split].
  - rewrite Hq, !invoke_wrapper. cbn [fst snd].
    rewrite this_binding_idempotent. reflexivity.
  - rewrite !invoke_wrapper. cbn [fst snd].
    rewrite this_binding_idempotent. apply invoke_native.
Qed.

End Layers.

(** * Instances *)

Lemma search_simplified_ok : jsstring_ok search_simplified.
Proof. repeat constructor. Qed.

(** C2: a URL in canonical form is left alone. *)
Lemma convertUrl_fixes_canonical_witness :
  jsstring_ok search_simplified
  /\ encodeURI search_simplified = Normal search_simplified_encoded
  /\ t2s_sample search_simplified = Normal search_simplified
  /\ convertUrl t2s_sample (VString search_simplified_encoded)
     = Normal (VString search_simplified_encoded).
Proof.
  split; [exact search_simplified_ok|].
  split; [reflexivity|]. split; [reflexivity|].
  apply (convertUrl_fixes_canonical t2s_sample search_simplified
           search_simplified_encoded);
    [exact search_simplified_ok | reflexivity | reflexivity].
Defined.

(** C2 as stated fails: [http://h/%7Euser] is a valid URI on which the
    library changes nothing, and [convertUrl] returns the different string
    [http://h/~user]; re-encoding does not undo decoding. *)
Lemma convertUrl_rewrites_unreserved_escape :
  decodeURI (units "http://h/%7Euser") = Normal (units "http://h/~user")
  /\ t2s_identity (units "http://h/~user") = Normal (units "http://h/~user")
  /\ convertUrl t2s_identity (VString (units "http://h/%7Euser"))
     = Normal (VString (units "http://h/~user"))
  /\ VString (units "http://h/~user") <> VString (units "http://h/%7Euser").
Proof. repeat split. discriminate. Qed.

(** The escape of a reserved character is kept by [decodeURI], and its ["%"]
    is then escaped again by [encodeURI]. *)
Example convertUrl_escapes_reserved_escape_again :
  convertUrl t2s_identity (VString (units "/s?q=a%26b"))
  = Normal (VString (units "/s?q=a%2526b")).
Proof. reflexivity. Qed.

(** Malformed percent-encoding: the input comes back. *)
Example convertUrl_malformed_escape :
  convertUrl t2s_sample (VString (units "/%E4%B8")) = Normal (VString (units "/%E4%B8"))
  /\ convertUrl t2s_sample (VString (units "100%")) = Normal (VString (units "100%")).
Proof. split; reflexivity. Qed.

(** A library that raises: the input comes back. *)
Example convertUrl_library_failure :
  convertUrl t2s_failing (VString search_traditional) = Normal (VString search_traditional).
Proof. reflexivity. Qed.

(** C3 as stated fails on its own scenario: the original is not called with
    [/search?q=] U+7E41 U+4F53 U+5B57 but with its percent-encoding. *)
Lemma fetch_scenario_reaches_original_encoded :
  calls (snd (invoke t2s_sample unit native_quiet (FetchWrapper (Native 0))
                VUndefined [VString search_traditional] fresh_world))
  = [{| callee := 0; receiver := VGlobal;
        arguments := [VString search_simplified_encoded] |}]
  /\ VString search_simplified_encoded <> VString search_simplified.
Proof. split; [reflexivity | discriminate]. Qed.

(** C4 as stated fails on its own scenario: the original [pushState] is not
    handed [/] U+9875 U+9762 but its percent-encoding. *)
Lemma pushState_scenario_hands_encoded_url :
  calls (snd (invoke t2s_sample unit native_quiet (PushStateWrapper (Native 2))
                (VObject 0) [VNull; VString []; VString page_traditional] fresh_world))
  = [{| callee := 2; receiver := VObject 0;
        arguments := [VNull; VString []; VString page_simplified_encoded] |}]
  /\ VString page_simplified_encoded <> VString page_simplified.
Proof. split; [reflexivity | discriminate]. Qed.

(** C6 as stated fails for fetch: where the original throws, the wrapper
    returns a rejected promise, and where the original returns a value, the
    wrapper returns a promise resolved with it. *)
Lemma fetch_wrapper_turns_throw_into_rejection :
  fst (invoke t2s_identity unit native_throwing (Native 0)
         VGlobal [VString (units "/x")] fresh_world)
  = Throw (VObject 7)
  /\ fst (invoke t2s_identity unit native_throwing (FetchWrapper (Native 0))
            VGlobal [VString (units "/x")] fresh_world)
     = Normal (VPromiseRejected (VObject 7))
  /\ fst (invoke t2s_identity unit native_quiet (Native 0)
            VGlobal [VString (units "/x")] fresh_world)
     = Normal VUndefined
  /\ fst (invoke t2s_identity unit native_quiet (FetchWrapper (Native 0))
            VGlobal [VString (units "/x")] fresh_world)
     = Normal (VPromiseResolved VUndefined).
Proof. repeat split. Qed.

(** C7 as stated fails: on [undefined] and on [null] the result is
    [undefined], respectively [null]. *)
Lemma convertUrl_undefined_is_undefined :
  convertUrl t2s_sample VUndefined = Normal VUndefined
  /\ convertUrl t2s_sample VNull = Normal VNull.
Proof. split; reflexivity. Qed.

(** C8: the second run on a page where the library is loaded. *)
Lemma second_install_stacks_layer_witness :
  ChineseS2T_undefined loaded_page = false
  /\ binding (initS2T (initS2T loaded_page)) Fetch
     = FetchWrapper (FetchWrapper (Native 0))
  /\ calls (snd (invoke t2s_sample unit native_quiet
                   (wrapper Fetch (wrapper Fetch (Native 0)))
                   VUndefined [VString search_traditional] fresh_world))
     = calls fresh_world
       ++ [{| callee := 0; receiver := this_binding VUndefined;
              arguments :=
                delegated_arguments t2s_sample Fetch
                  (delegated_arguments t2s_sample Fetch [VString search_traditional]) |}].
Proof.
  split; [reflexivity|].
  pose proof (second_install_stacks_layer t2s_sample unit native_quiet loaded_page
                Fetch 0 VUndefined [VString search_traditional] fresh_world
                eq_refl) as [H1 [_ H3]].
  split; [exact H1 | exact H3].
Defined.

(** C8 as stated fails: after a second run every dispatch point is a wrapper
    around a wrapper, and a call goes through [convertUrl] twice, which
    shows with a conversion that is not idempotent. *)
Lemma second_install_double_wraps :
  dispatch_points (initS2T (initS2T loaded_page))
  = [FetchWrapper (FetchWrapper (Native 0)); OpenWrapper (OpenWrapper (Native 1));
     PushStateWrapper (PushStateWrapper (Native 2));
     ReplaceStateWrapper (ReplaceStateWrapper (Native 3))]
  /\ map layers (dispatch_points (initS2T (initS2T loaded_page))) = [2; 2; 2; 2]%nat
  /\ map layers (dispatch_points (initS2T loaded_page)) = [1; 1; 1; 1]%nat
  /\ calls (snd (invoke t2s_next unit native_quiet
                   (window_fetch (initS2T loaded_page))
                   VUndefined [VString (units "/a")] fresh_world))
     = [{| callee := 0; receiver := VGlobal; arguments := [VString (units "/b")] |}]
  /\ calls (snd (invoke t2s_next unit native_quiet
                   (window_fetch (initS2T (initS2T loaded_page)))
                   VUndefined [VString (units "/a")] fresh_world))
     = [{| callee := 0; receiver := VGlobal; arguments := [VString (units "/c")] |}].
Proof. repeat split. Qed.

(** C9: three polls without the library, then the library loads. *)
Lemma gate_polls_until_defined_witness :
  ChineseS2T_undefined pristine_page = true
  /\ timers pristine_page = []
  /\ typeof (VObject 1) <> TUndefined
  /\ let q := run (map Fire [0; 4; 0]) (initS2T pristine_page) in
     let r := fire 2 (load_library (VObject 1) q) in
     ((forall d, binding q d = binding pristine_page d)
      /\ timers q = [{| timer_callback := InitS2T; due := now q + 100 |}]
      /\ now q = now pristine_page + 100 * N.of_nat (length [0; 4; 0]) + total [0; 4; 0]
      /\ console q = console pristine_page)
     /\ ((forall d, binding r d = wrapper d (binding pristine_page d))
         /\ timers r = []
         /\ console r = console pristine_page ++ [startup_notice]
         /\ (forall lates', run (map Fire lates') r = r)).
Proof.
  split; [reflexivity|]. split; [reflexivity|]. split; [discriminate|].
  apply (gate_polls_until_defined pristine_page [0; 4; 0] (VObject 1) 2);
    [reflexivity | reflexivity | discriminate].
Defined.

(** C10 as stated fails: called without a receiver, as in [fetch(url)], the
    wrapper hands its original the global object, not [undefined]. *)
Lemma bare_call_receiver_is_global :
  calls (snd (invoke t2s_identity unit native_quiet (FetchWrapper (Native 0))
                VUndefined [VString (units "/x")] fresh_world))
  = [{| callee := 0; receiver := VGlobal; arguments := [VString (units "/x")] |}]
  /\ calls (snd (invoke t2s_identity unit native_quiet (Native 0)
                   VUndefined [VString (units "/x")] fresh_world))
     = [{| callee := 0; receiver := VUndefined; arguments := [VString (units "/x")] |}]
  /\ VGlobal <> VUndefined.
Proof. repeat split. discriminate. Qed.


(** * Further properties of [layout.tsx] *)

(** ** The ad-keyword loader *)

Lemma split_on_separators_not_nil s : split_on_separators s <> [].
Proof.
  destruct s as [|c rest]; cbn; [discriminate|].
  destruct (is_separator c); [discriminate|].
  destruct (split_on_separators rest); discriminate.
Qed.

Lemma split_on_separators_app a c b :
  is_separator c = true ->
  split_on_separators (a ++ c :: b) = split_on_separators a ++ split_on_separators b.
Proof.
  intros Hc. induction a as [|x a IH]; cbn [app split_on_separators].
  - rewrite Hc. reflexivity.
  - rewrite IH. destruct (is_separator x); [reflexivity|].
    pose proof (split_on_separators_not_nil a) as Ha.
    destruct (split_on_separators a) as [|f fs]; [contradiction|]. reflexivity.
Qed.

Lemma split_on_separators_fields s :
  Forall (fun f => no_separator f = true) (split_on_separators s).
Proof.
  induction s as [|c rest IH]; cbn [split_on_separators].
  - repeat constructor.
  - destruct (is_separator c) eqn:Hc; [constructor; [reflexivity | exact IH]|].
    destruct (split_on_separators rest) as [|f fs]; [repeat constructor; cbn; rewrite Hc; reflexivity|].
    apply Forall_cons_1 in IH as [Hf Hfs]. constructor; [|exact Hfs].
    unfold no_separator in *. cbn. rewrite Hc, Hf. reflexivity.
Qed.

Lemma split_on_separators_field k :
  no_separator k = true -> split_on_separators k = [k].
Proof.
  unfold no_separator. induction k as [|c k IH]; [reflexivity|].
  cbn. intros [Hc Hk]%andb_prop. apply negb_true_iff in Hc.
  rewrite Hc, (IH Hk). reflexivity.
Qed.

Lemma trim_start_decompose s :
  exists pre, s = pre ++ trim_start s /\ forallb is_trimmed_away pre = true.
Proof.
  induction s as [|c s IH]; [exists []; split; reflexivity|].
  cbn [trim_start]. destruct (is_trimmed_away c) eqn:Hc.
  - destruct IH as (pre & Hs & Hpre). exists (c :: pre). split.
    + cbn. rewrite <- Hs. reflexivity.
    + cbn. rewrite Hc, Hpre. reflexivity.
  - exists []. split; reflexivity.
Qed.

Lemma trim_start_head s c r : trim_start s = c :: r -> is_trimmed_away c = false.
Proof.
  induction s as [|x s IH]; [discriminate|].
  cbn [trim_start]. destruct (is_trimmed_away x) eqn:Hx; [exact IH|].
  intros [= <- _]. exact Hx.
Qed.

Lemma trim_end_decompose s :
  exists suf, s = trim_end s ++ suf /\ forallb is_trimmed_away suf = true.
Proof.
  induction s as [|c s IH]; [exists []; split; reflexivity|].
  destruct IH as (suf & Hs & Hsuf). cbn [trim_end].
  destruct (trim_end s) as [|k kept] eqn:Hk.
  - cbn in Hs. subst suf. destruct (is_trimmed_away c) eqn:Hc.
    + exists (c :: s). split; [reflexivity|]. cbn. rewrite Hc, Hsuf. reflexivity.
    + exists s. split; [reflexivity | exact Hsuf].
  - exists suf. split; [|exact Hsuf]. cbn [app]. f_equal. exact Hs.
Qed.

Lemma trim_end_head c s x r : trim_end (c :: s) = x :: r -> x = c.
Proof.
  cbn [trim_end]. destruct (trim_end s).
  - destruct (is_trimmed_away c); [discriminate|]. intros [= <- _]. reflexivity.
  - intros [= <- _]. reflexivity.
Qed.

Lemma trim_end_last s c r d :
  trim_end s = c :: r -> is_trimmed_away (List.last (c :: r) d) = false.
Proof.
  revert c r. induction s as [|x s IH]; [discriminate|].
  intros c r. cbn [trim_end]. destruct (trim_end s) as [|k kept] eqn:Hk.
  - destruct (is_trimmed_away x) eqn:Hx; [discriminate|].
    intros [= <- <-]. exact Hx.
  - intros [= <- <-]. specialize (IH k kept eq_refl). exact IH.
Qed.

Lemma trim_end_fixed s d :
  s <> [] -> is_trimmed_away (List.last s d) = false -> trim_end s = s.
Proof.
  induction s as [|c s IH]; [contradiction|]. intros _ Hlast.
  destruct s as [|c' s'].
  - cbn in *. rewrite Hlast. reflexivity.
  - change (List.last (c :: c' :: s') d) with (List.last (c' :: s') d) in Hlast.
    cbn [trim_end] in *. rewrite IH by (discriminate || exact Hlast). reflexivity.
Qed.

Lemma no_separator_app a b :
  no_separator (a ++ b) = no_separator a && no_separator b.
Proof. apply forallb_app. Qed.

Lemma trim_no_separator f : no_separator f = true -> no_separator (trim f) = true.
Proof.
  intros Hf. unfold trim.
  destruct (trim_start_decompose f) as (pre & Hpre & _).
  destruct (trim_end_decompose (trim_start f)) as (suf & Hsuf & _).
  rewrite Hpre, Hsuf, !no_separator_app in Hf.
  apply andb_prop in Hf as [_ Hf]. apply andb_prop in Hf as [Hf _]. exact Hf.
Qed.

(** A trimmed field that is not empty and has no separator is a keyword. *)
Lemma trim_is_keyword f :
  no_separator f = true -> trim f <> [] -> is_keyword (trim f) = true.
Proof.
  intros Hf Hne. pose proof (trim_no_separator f Hf) as Hsep.
  unfold trim in *. destruct (trim_end (trim_start f)) as [|c r] eqn:Hk; [contradiction|].
  cbn [is_keyword]. fold (no_separator (c :: r)). rewrite Hsep.
  rewrite (trim_end_last _ _ _ c Hk).
  destruct (trim_start f) as [|x s] eqn:Hs; [discriminate|].
  apply trim_end_head in Hk as ->. rewrite (trim_start_head _ _ _ Hs). reflexivity.
Qed.

Lemma trim_keyword k : is_keyword k = true -> trim k = k.
Proof.
  destruct k as [|c r]; [discriminate|]. cbn [is_keyword].
  intros [[Hc Hl]%andb_prop _]%andb_prop. apply negb_true_iff in Hc, Hl.
  unfold trim. cbn [trim_start]. rewrite Hc.
  apply trim_end_fixed with (d := c); [discriminate | exact Hl].
Qed.

Lemma is_keyword_no_separator k : is_keyword k = true -> no_separator k = true.
Proof.
  destruct k as [|c r]; [discriminate|]. cbn [is_keyword].
  intros [_ H]%andb_prop. exact H.
Qed.

Lemma parse_keywords_keywords content :
  Forall (fun k => is_keyword k = true) (parse_keywords content).
Proof.
  unfold parse_keywords.
  pose proof (split_on_separators_fields content) as Hf.
  induction Hf as [|f fs Hf _ IH]; [constructor|].
  cbn [map List.filter]. destruct (trim f) as [|c r] eqn:Ht; [exact IH|].
  cbn [ToBoolean length Nat.eqb negb]. constructor; [|exact IH].
  rewrite <- Ht. apply trim_is_keyword; [exact Hf | rewrite Ht; discriminate].
Qed.

Lemma parse_keywords_app a c b :
  is_separator c = true ->
  parse_keywords (a ++ c :: b) = parse_keywords a ++ parse_keywords b.
Proof.
  intros Hc. unfold parse_keywords.
  rewrite split_on_separators_app, map_app, List.filter_app by exact Hc. reflexivity.
Qed.

Lemma parse_keywords_keyword k : is_keyword k = true -> parse_keywords k = [k].
Proof.
  intros Hk. unfold parse_keywords.
  rewrite split_on_separators_field by (apply is_keyword_no_separator, Hk).
  cbn [map List.filter]. rewrite trim_keyword by exact Hk.
  destruct k; [discriminate | reflexivity].
Qed.

Lemma parse_keywords_nil : parse_keywords [] = [].
Proof. reflexivity. Qed.

Lemma parse_join_keywords ks :
  Forall (fun k => is_keyword k = true) ks -> parse_keywords (join_keywords ks) = ks.
Proof.
  induction 1 as [|k ks Hk Hks IH]; [reflexivity|].
  destruct ks as [|k' more].
  - apply parse_keywords_keyword, Hk.
  - change (join_keywords (k :: k' :: more)) with (k ++ 44 :: join_keywords (k' :: more)).
    rewrite parse_keywords_app by reflexivity.
    rewrite IH, parse_keywords_keyword by exact Hk. reflexivity.
Qed.

(** X1.  Keywords in the form the loader produces, written with commas
    between them, are read back as they are; so reading what was read
    changes nothing. *)
Theorem parse_keywords_round_trip :
  (forall ks, Forall (fun k => is_keyword k = true) ks ->
              parse_keywords (join_keywords ks) = ks)
  /\ (forall content,
        parse_keywords (join_keywords (parse_keywords content)) = parse_keywords content).
Proof.
  split.
  - exact parse_join_keywords.
  - intros content. apply parse_join_keywords, parse_keywords_keywords.
Qed.

(** X2.  A line feed or a comma cuts the content in two parts that are read
    independently, the keywords of the first part coming first. *)
Theorem parse_keywords_separates (a b : jsstring) :
  parse_keywords (a ++ 10 :: b) = parse_keywords a ++ parse_keywords b
  /\ parse_keywords (a ++ 44 :: b) = parse_keywords a ++ parse_keywords b.
Proof. split; apply parse_keywords_app; reflexivity. Qed.

Lemma trim_end_snoc g w : is_trimmed_away w = true -> trim_end (g ++ [w]) = trim_end g.
Proof.
  intros Hw. induction g as [|c g IH]; cbn [app trim_end].
  - rewrite Hw. reflexivity.
  - rewrite IH. reflexivity.
Qed.

Lemma trim_start_snoc f w :
  is_trimmed_away w = true ->
  trim_start (f ++ [w]) = match trim_start f with [] => [] | g => g ++ [w] end.
Proof.
  intros Hw. induction f as [|c f IH]; cbn [app trim_start].
  - rewrite Hw. reflexivity.
  - destruct (is_trimmed_away c); [exact IH | reflexivity].
Qed.

Lemma trim_snoc f w : is_trimmed_away w = true -> trim (f ++ [w]) = trim f.
Proof.
  intros Hw. unfold trim. rewrite trim_start_snoc by exact Hw.
  destruct (trim_start f) as [|c g]; [reflexivity|].
  apply trim_end_snoc, Hw.
Qed.

Lemma split_on_separators_snoc a w :
  is_separator w = false ->
  exists fields f,
    split_on_separators a = fields ++ [f]
    /\ split_on_separators (a ++ [w]) = fields ++ [f ++ [w]].
Proof.
  intros Hw. induction a as [|c a IH]; cbn [app split_on_separators].
  - rewrite Hw. exists [], []. split; reflexivity.
  - destruct IH as (fields & f & Ha & Haw). rewrite Ha, Haw.
    destruct (is_separator c).
    + exists ([] :: fields), f. split; reflexivity.
    + destruct fields as [|f0 fields]; cbn [app].
      * exists [], (c :: f). split; reflexivity.
      * exists ((c :: f0) :: fields), f. split; reflexivity.
Qed.

Lemma parse_keywords_snoc a w :
  is_separator w = false -> is_trimmed_away w = true ->
  parse_keywords (a ++ [w]) = parse_keywords a.
Proof.
  intros Hsep Hw. unfold parse_keywords.
  destruct (split_on_separators_snoc a w Hsep) as (fields & f & -> & ->).
  rewrite !map_app. cbn [map]. rewrite trim_snoc by exact Hw. reflexivity.
Qed.

(** X3.  A carriage return before a line feed is ignored: a file with CRLF
    line ends gives the keywords of the same file with LF line ends. *)
Theorem parse_keywords_crlf (a b : jsstring) :
  parse_keywords (a ++ 13 :: 10 :: b) = parse_keywords (a ++ 10 :: b).
Proof.
  replace (a ++ 13 :: 10 :: b) with ((a ++ [13]) ++ 10 :: b)
    by (rewrite <- app_assoc; reflexivity).
  transitivity (parse_keywords (a ++ [13]) ++ parse_keywords b).
  - apply parse_keywords_app. reflexivity.
  - rewrite parse_keywords_snoc by reflexivity.
    symmetry. apply parse_keywords_app. reflexivity.
Qed.

Section AdKeywordsFacts.

Variable isAbsolute : jsstring -> bool.
Variable join : jsstring -> jsstring -> jsstring.
Variable cwd : completion jsstring.
Variable readFile : jsstring -> fs_error + jsstring.

Lemma env_fallback_keywords env keywords :
  Forall (fun k => is_keyword k = true) keywords ->
  Forall (fun k => is_keyword k = true) (env_fallback env keywords).
Proof.
  intros Hk. unfold env_fallback.
  destruct (Nat.eqb (length keywords) 0); [|exact Hk].
  destruct (ToBoolean _); [|exact Hk].
  destruct (js_or _ _); try exact Hk. apply parse_keywords_keywords.
Qed.

Lemma env_fallback_kept env keywords :
  keywords <> [] -> env_fallback env keywords = keywords.
Proof. destruct keywords; [contradiction | reflexivity]. Qed.

(** X4.  Whatever the environment and the file system, every keyword handed
    to [AdKeywordsInjector] is non-empty, has no white space at either end
    and contains neither a comma nor a line feed. *)
Theorem AdKeywordsWrapper_keywords (env : environment) :
  Forall (fun k => is_keyword k = true)
    (fst (AdKeywordsWrapper isAbsolute join cwd readFile env)).
Proof.
  unfold AdKeywordsWrapper.
  destruct (ToBoolean (env_value (AD_KEYWORDS_FILE env)));
    [|apply env_fallback_keywords; constructor].
  destruct (env_value (AD_KEYWORDS_FILE env));
    try (apply env_fallback_keywords; constructor).
  destruct (resolve_keywords_file isAbsolute join cwd s) as [filePath|e];
    [|constructor].
  cbn [bind]. unfold read_keywords_file.
  destruct (readFile filePath) as [fileError|content]; cbn [fst].
  - apply env_fallback_keywords. constructor.
  - apply env_fallback_keywords, parse_keywords_keywords.
Qed.

(** X5.  A keywords file that cannot be read, or that holds no keyword, gives
    the keywords the loader gives when [AD_KEYWORDS_FILE] is not set.  A
    missing file (ENOENT) leaves the console silent, another read error is
    warned about once, and a file without keyword is logged as loaded with
    0 keywords. *)
Theorem AdKeywordsWrapper_file_without_keywords
    (env : environment) (file filePath : jsstring) :
  AD_KEYWORDS_FILE env = Some file ->
  resolve_keywords_file isAbsolute join cwd file = Normal filePath ->
  match readFile filePath with
  | inl _ => True
  | inr content => parse_keywords content = []
  end ->
  fst (AdKeywordsWrapper isAbsolute join cwd readFile env)
  = fst (AdKeywordsWrapper isAbsolute join cwd readFile
           {| AD_KEYWORDS_FILE := None; AD_KEYWORDS := AD_KEYWORDS env;
              NEXT_PUBLIC_AD_KEYWORDS := NEXT_PUBLIC_AD_KEYWORDS env |})
  /\ snd (AdKeywordsWrapper isAbsolute join cwd readFile env)
     = match file, readFile filePath with
       | [], _ => []
       | _, inl fileError =>
           if code_is_not_ENOENT fileError then [Warn_error_reading fileError] else []
       | _, inr _ => [Log_loaded 0 filePath]
       end.
Proof.
  intros Hfile Hpath Hread. unfold AdKeywordsWrapper. rewrite Hfile.
  destruct file as [|c file]; [split; reflexivity|].
  cbn [env_value ToBoolean length Nat.eqb negb AD_KEYWORDS_FILE].
  rewrite Hpath. cbn [bind]. unfold read_keywords_file.
  destruct (readFile filePath) as [fileError|content].
  - split; reflexivity.
  - rewrite Hread. split; reflexivity.
Qed.

(** X6.  When the keywords file holds at least one keyword, the keywords are
    those of the file and [AD_KEYWORDS] and [NEXT_PUBLIC_AD_KEYWORDS] are
    not looked at. *)
Theorem AdKeywordsWrapper_file_first
    (env env' : environment) (c : code_unit) (file filePath content : jsstring) :
  AD_KEYWORDS_FILE env = Some (c :: file) ->
  AD_KEYWORDS_FILE env' = Some (c :: file) ->
  resolve_keywords_file isAbsolute join cwd (c :: file) = Normal filePath ->
  readFile filePath = inr content ->
  parse_keywords content <> [] ->
  AdKeywordsWrapper isAbsolute join cwd readFile env
  = (parse_keywords content, [Log_loaded (length (parse_keywords content)) filePath])
  /\ AdKeywordsWrapper isAbsolute join cwd readFile env'
     = AdKeywordsWrapper isAbsolute join cwd readFile env.
Proof.
  intros Hfile Hfile' Hpath Hread Hne.
  assert (H : forall e, AD_KEYWORDS_FILE e = Some (c :: file) ->
              AdKeywordsWrapper isAbsolute join cwd readFile e
              = (parse_keywords content,
                 [Log_loaded (length (parse_keywords content)) filePath])).
  { intros e He. unfold AdKeywordsWrapper. rewrite He.
    cbn [env_value ToBoolean length Nat.eqb negb].
    rewrite Hpath. cbn [bind]. unfold read_keywords_file. rewrite Hread.
    rewrite env_fallback_kept by exact Hne. reflexivity. }
  split; [apply H, Hfile|]. rewrite (H env Hfile), (H env' Hfile'). reflexivity.
Qed.

(** X7.  Among the variables, [AD_KEYWORDS] comes first: when it is set to a
    non-empty string, [NEXT_PUBLIC_AD_KEYWORDS] has no influence; when it is
    set to the empty string, the loader behaves as if it were not set. *)
Theorem AdKeywordsWrapper_variable_order
    (file next next' : option jsstring) (c : code_unit) (keywords : jsstring) :
  AdKeywordsWrapper isAbsolute join cwd readFile
    {| AD_KEYWORDS_FILE := file; AD_KEYWORDS := Some (c :: keywords);
       NEXT_PUBLIC_AD_KEYWORDS := next |}
  = AdKeywordsWrapper isAbsolute join cwd readFile
      {| AD_KEYWORDS_FILE := file; AD_KEYWORDS := Some (c :: keywords);
         NEXT_PUBLIC_AD_KEYWORDS := next' |}
  /\ AdKeywordsWrapper isAbsolute join cwd readFile
       {| AD_KEYWORDS_FILE := file; AD_KEYWORDS := Some [];
          NEXT_PUBLIC_AD_KEYWORDS := next |}
     = AdKeywordsWrapper isAbsolute join cwd readFile
         {| AD_KEYWORDS_FILE := file; AD_KEYWORDS := None;
            NEXT_PUBLIC_AD_KEYWORDS := next |}.
Proof. split; reflexivity. Qed.

(** X8.  When the keywords file is given by a relative path and
    [process.cwd()] throws, the loader warns once and hands over no keyword
    at all: [AD_KEYWORDS] and [NEXT_PUBLIC_AD_KEYWORDS] are not consulted. *)
Theorem AdKeywordsWrapper_cwd_throws
    (env : environment) (c : code_unit) (file : jsstring) (error : value) :
  AD_KEYWORDS_FILE env = Some (c :: file) ->
  isAbsolute (c :: file) = false ->
  cwd = Throw error ->
  AdKeywordsWrapper isAbsolute join cwd readFile env = ([], [Warn_failed_to_load error]).
Proof.
  intros Hfile Habs Hcwd. unfold AdKeywordsWrapper, resolve_keywords_file.
  rewrite Hfile. cbn [env_value ToBoolean length Nat.eqb negb].
  rewrite Habs, Hcwd. reflexivity.
Qed.

End AdKeywordsFacts.

(** ** The scroll script *)

Lemma scroll_run_snoc es e s : Scroll.run (es ++ [e]) s = Scroll.step (Scroll.run es s) e.
Proof. unfold Scroll.run. rewrite fold_left_app. reflexivity. Qed.

Lemma settled_start first_id t : Scroll.settled (Scroll.start first_id t).
Proof. split; [reflexivity | left; split; reflexivity]. Qed.

Lemma settled_on_scroll s : Scroll.settled s -> Scroll.settled (Scroll.on_scroll s).
Proof.
  intros [Hf Ht]. unfold Scroll.on_scroll.
  destruct (Scroll.ticking s) eqn:Htick; cbn [negb].
  - unfold Scroll.settled. rewrite Htick. split; assumption.
  - split; [cbn; rewrite Hf; reflexivity | exact Ht].
Qed.

Lemma frame_callback_effect s :
  Scroll.one_timeout s ->
  Scroll.one_timeout (Scroll.frame_callback s)
  /\ Scroll.ticking (Scroll.frame_callback s) = false
  /\ Scroll.frame_requests (Scroll.frame_callback s) = Scroll.frame_requests s
  /\ Scroll.scrolling (Scroll.frame_callback s) = true
  /\ Scroll.timeouts (Scroll.frame_callback s)
     = [(Scroll.next_timeout s, Scroll.clock s + 150)]
  /\ Scroll.next_timeout (Scroll.frame_callback s) = S (Scroll.next_timeout s)
  /\ Scroll.clock (Scroll.frame_callback s) = Scroll.clock s.
Proof.
  intros Ht.
  assert (Hclear : Scroll.timeouts (Scroll.clearTimeout (Scroll.scrollTimer s) s) = []
                   /\ Scroll.next_timeout (Scroll.clearTimeout (Scroll.scrollTimer s) s)
                      = Scroll.next_timeout s
                   /\ Scroll.clock (Scroll.clearTimeout (Scroll.scrollTimer s) s)
                      = Scroll.clock s
                   /\ Scroll.frame_requests (Scroll.clearTimeout (Scroll.scrollTimer s) s)
                      = Scroll.frame_requests s).
  { destruct Ht as [[_ Hts] | (_ & id & due & Hts & Hid & _)].
    - unfold Scroll.clearTimeout. destruct (Scroll.scrollTimer s); cbn; rewrite ?Hts; auto.
    - rewrite Hid. cbn. rewrite Hts. cbn. rewrite Nat.eqb_refl. auto. }
  destruct Hclear as (Hc1 & Hc2 & Hc3 & Hc4).
  unfold Scroll.frame_callback, Scroll.handleScroll, Scroll.one_timeout.
  cbn [Scroll.ticking Scroll.scrolling Scroll.timeouts Scroll.scrollTimer
       Scroll.frame_requests Scroll.next_timeout Scroll.clock].
  rewrite Hc1, Hc2, Hc3, Hc4. repeat split.
  right. split; [reflexivity|].
  exists (Scroll.next_timeout s), (Scroll.clock s + 150). cbn. repeat split. lia.
Qed.

Lemma settled_animation_frame s :
  Scroll.settled s -> Scroll.settled (Scroll.animation_frame s).
Proof.
  intros [Hf Ht]. unfold Scroll.animation_frame. rewrite Hf.
  destruct (Scroll.ticking s) eqn:Htick; cbn [Nat.iter nat_rect].
  - match goal with |- Scroll.settled (Scroll.frame_callback ?s0) =>
      destruct (frame_callback_effect s0 Ht) as (H1 & H2 & H3 & _) end.
    split; [rewrite H2, H3; reflexivity | exact H1].
  - split; [reflexivity | exact Ht].
Qed.

Lemma settled_run_timeout s : Scroll.settled s -> Scroll.settled (Scroll.run_timeout s).
Proof.
  intros [Hf Ht]. unfold Scroll.run_timeout.
  destruct Ht as [[Hs Hts] | (Hs & id & due & Hts & Hid & Hdue)]; rewrite Hts.
  - cbn. split; [exact Hf | left; split; assumption].
  - cbn [Scroll.take_due snd]. destruct (due <=? Scroll.clock s).
    + split; [exact Hf | left; split; reflexivity].
    + split; [exact Hf | right; split; [exact Hs | eauto]].
Qed.

Lemma settled_elapse d s : Scroll.settled s -> Scroll.settled (Scroll.elapse d s).
Proof.
  intros [Hf Ht]. split; [exact Hf|].
  destruct Ht as [Ht | (Hs & id & due & Hts & Hid & Hdue)]; [left; exact Ht|].
  right. split; [exact Hs|]. exists id, due. cbn. repeat split; try assumption. lia.
Qed.

Lemma settled_step s e : Scroll.settled s -> Scroll.settled (Scroll.step s e).
Proof.
  destruct e; cbn [Scroll.step];
    auto using settled_on_scroll, settled_animation_frame, settled_run_timeout,
               settled_elapse.
Qed.

Lemma settled_run es s : Scroll.settled s -> Scroll.settled (Scroll.run es s).
Proof.
  revert s. induction es as [|e es IH]; intros s Hs; [exact Hs|].
  apply IH, settled_step, Hs.
Qed.

(** X9.  At every moment of every run of the scroll script at most one frame
    request is pending, and one is pending exactly while [ticking] is set; at
    most one timeout is pending, it is the one [scrollTimer] names and is due
    within 150 ms; and the class [scrolling] is on the body exactly while
    that timeout is pending. *)
Theorem scroll_script_invariant (first_id : nat) (t : N) (es : list Scroll.event) :
  let s := Scroll.run es (Scroll.start first_id t) in
  (Scroll.frame_requests s <= 1)%nat
  /\ (Scroll.ticking s = true <-> Scroll.frame_requests s = 1%nat)
  /\ (length (Scroll.timeouts s) <= 1)%nat
  /\ (Scroll.scrolling s = true <-> Scroll.timeouts s <> [])
  /\ (forall id due, In (id, due) (Scroll.timeouts s) ->
                     Scroll.scrollTimer s = Some id /\ due <= Scroll.clock s + 150).
Proof.
  intros s.
  destruct (settled_run es _ (settled_start first_id t)) as [Hf Ht]. fold s in Hf, Ht.
  split; [|split; [|split; [|split]]].
  - rewrite Hf. destruct (Scroll.ticking s); lia.
  - rewrite Hf. destruct (Scroll.ticking s); split; congruence.
  - destruct Ht as [[_ ->] | (_ & id & due & -> & _)]; cbn; lia.
  - destruct Ht as [[-> ->] | (-> & id & due & -> & _)]; split; congruence.
  - intros id due Hin.
    destruct Ht as [[_ Hts] | (_ & id' & due' & Hts & Hid & Hdue)];
      rewrite Hts in Hin; [destruct Hin|].
    destruct Hin as [[= <- <-]|[]]. split; assumption.
Qed.

Lemma settled_scrolling s :
  Scroll.settled s -> Scroll.scrolling s = true ->
  exists id due, Scroll.timeouts s = [(id, due)].
Proof.
  intros [_ [[Hs _] | (_ & id & due & Hts & _)]] Hon; [congruence | eauto].
Qed.

Lemma animation_frame_effect s :
  Scroll.settled s ->
  Scroll.ticking (Scroll.animation_frame s) = false
  /\ Scroll.frame_requests (Scroll.animation_frame s) = 0%nat
  /\ Scroll.clock (Scroll.animation_frame s) = Scroll.clock s
  /\ (if Scroll.ticking s
      then Scroll.scrolling (Scroll.animation_frame s) = true
           /\ Scroll.timeouts (Scroll.animation_frame s)
              = [(Scroll.next_timeout s, Scroll.clock s + 150)]
           /\ Scroll.next_timeout (Scroll.animation_frame s) = S (Scroll.next_timeout s)
      else Scroll.scrolling (Scroll.animation_frame s) = Scroll.scrolling s
           /\ Scroll.timeouts (Scroll.animation_frame s) = Scroll.timeouts s
           /\ Scroll.next_timeout (Scroll.animation_frame s) = Scroll.next_timeout s).
Proof.
  intros [Hf Ht]. unfold Scroll.animation_frame. rewrite Hf.
  destruct (Scroll.ticking s) eqn:Htick; cbn [Nat.iter nat_rect].
  - match goal with |- context [Scroll.frame_callback ?s0] =>
      destruct (frame_callback_effect s0 Ht) as (_ & H2 & H3 & H4 & H5 & H6 & H7) end.
    rewrite H2, H3, H4, H5, H6, H7. repeat split.
  - repeat split.
Qed.

Lemma scrolling_stays es :
  forall s,
    Scroll.settled s -> Scroll.scrolling s = true -> Scroll.elapsed es < 150 ->
    (forall id due, In (id, due) (Scroll.timeouts s) ->
                    Scroll.clock s + Scroll.elapsed es < due) ->
    Scroll.scrolling (Scroll.run es s) = true.
Proof.
  induction es as [|e es IH]; intros s Hs Hon Hel Hdue; [exact Hon|].
  change (Scroll.run (e :: es) s) with (Scroll.run es (Scroll.step s e)).
  pose proof (settled_step s e Hs) as Hs'.
  destruct e as [| | |d]; cbn [Scroll.step Scroll.elapsed] in *.
  - apply IH; try assumption; unfold Scroll.on_scroll;
      destruct (negb (Scroll.ticking s)); assumption.
  - destruct (animation_frame_effect s Hs) as (_ & _ & Hclock & Heff).
    destruct (Scroll.ticking s).
    + destruct Heff as (Hon' & Hts & _). apply IH; try assumption.
      intros id due Hin. rewrite Hts in Hin. destruct Hin as [[= <- <-]|[]].
      rewrite Hclock. lia.
    + destruct Heff as (Hon' & Hts & _). apply IH; try assumption.
      * rewrite Hon'. exact Hon.
      * intros id due Hin. rewrite Hts in Hin. rewrite Hclock.
        exact (Hdue id due Hin).
  - destruct (settled_scrolling s Hs Hon) as (id & due & Hts).
    assert (Hlate : Scroll.clock s + Scroll.elapsed es < due)
      by (apply (Hdue id); rewrite Hts; left; reflexivity).
    assert (Hsame : Scroll.run_timeout s = s).
    { unfold Scroll.run_timeout. rewrite Hts. cbn [Scroll.take_due snd].
      destruct (N.leb_spec due (Scroll.clock s)); [lia | reflexivity]. }
    rewrite Hsame in *. apply IH; assumption.
  - apply IH; try assumption; [lia|].
    intros id due Hin. cbn. specialize (Hdue id due Hin). lia.
Qed.

(** X10.  Once a frame has handled a scroll event, the class [scrolling]
    stays on the body, whatever happens, as long as less than 150 ms have
    passed since that frame. *)
Theorem scrolling_lasts_150ms
    (first_id : nat) (t : N) (before after : list Scroll.event) :
  Scroll.ticking (Scroll.run before (Scroll.start first_id t)) = true ->
  Scroll.elapsed after < 150 ->
  Scroll.scrolling
    (Scroll.run (before ++ Scroll.AnimationFrame :: after) (Scroll.start first_id t))
  = true.
Proof.
  intros Htick Hel. unfold Scroll.run. rewrite fold_left_app.
  fold (Scroll.run before (Scroll.start first_id t)).
  set (s := Scroll.run before (Scroll.start first_id t)) in *.
  cbn [fold_left Scroll.step].
  fold (Scroll.run after (Scroll.animation_frame s)).
  assert (Hs : Scroll.settled s) by apply settled_run, settled_start.
  destruct (animation_frame_effect s Hs) as (_ & _ & Hclock & Heff).
  rewrite Htick in Heff. destruct Heff as (Hon & Hts & _).
  apply scrolling_stays; try assumption.
  - apply settled_animation_frame, Hs.
  - intros id due Hin. rewrite Hts in Hin. destruct Hin as [[= <- <-]|[]].
    rewrite Hclock. lia.
Qed.

(** X11.  The class does not stay for ever: from any moment of any run, once
    a frame has been rendered, 150 ms or more have passed and the pending
    timeout has run, the class is off the body and the script has nothing
    pending. *)
Theorem scrolling_ends (first_id : nat) (t : N) (es : list Scroll.event) (d : N) :
  let s := Scroll.run (es ++ [Scroll.AnimationFrame; Scroll.Elapse (150 + d);
                              Scroll.Timeout]) (Scroll.start first_id t) in
  Scroll.scrolling s = false /\ Scroll.timeouts s = []
  /\ Scroll.frame_requests s = 0%nat /\ Scroll.ticking s = false.
Proof.
  unfold Scroll.run. rewrite fold_left_app.
  fold (Scroll.run es (Scroll.start first_id t)).
  set (s0 := Scroll.run es (Scroll.start first_id t)).
  assert (Hs0 : Scroll.settled s0) by apply settled_run, settled_start.
  cbn [fold_left Scroll.step].
  destruct (animation_frame_effect s0 Hs0) as (Htick & Hfr & Hclock & _).
  pose proof (settled_animation_frame s0 Hs0) as [_ Ht].
  set (s1 := Scroll.animation_frame s0) in *.
  unfold Scroll.run_timeout. cbn [Scroll.elapse Scroll.clock Scroll.timeouts].
  destruct Ht as [[Hoff Hts] | (_ & id & due & Hts & _ & Hdue)]; rewrite Hts.
  - cbn. auto.
  - cbn [Scroll.take_due snd].
    destruct (N.leb_spec due (Scroll.clock s1 + (150 + d))); [|lia].
    cbn. auto.
Qed.

Lemma count_snoc {A} (f : A -> bool) es e :
  length (List.filter f (es ++ [e])) = (length (List.filter f es) + if f e then 1 else 0)%nat.
Proof.
  rewrite List.filter_app, length_app. cbn. destruct (f e); reflexivity.
Qed.

(** X12.  [handleScroll] runs, and sets a timeout, at most once per rendered
    frame and at most once per scroll event: the number of timeouts set in a
    run is bounded by the number of frames and by the number of scroll
    events of the run. *)
Theorem handleScroll_throttled (first_id : nat) (t : N) (es : list Scroll.event) :
  let s := Scroll.run es (Scroll.start first_id t) in
  (first_id <= Scroll.next_timeout s)%nat
  /\ (Scroll.next_timeout s - first_id <= rendered_frames es)%nat
  /\ (Scroll.next_timeout s - first_id + Scroll.frame_requests s <= scroll_events es)%nat.
Proof.
  cbv zeta. induction es as [|e es IH] using rev_ind.
  - cbn. lia.
  - rewrite scroll_run_snoc. unfold rendered_frames, scroll_events in *.
    rewrite !count_snoc.
    set (s := Scroll.run es (Scroll.start first_id t)) in *.
    assert (Hs : Scroll.settled s) by apply settled_run, settled_start.
    destruct e as [| | |d]; cbn [Scroll.step].
    + unfold Scroll.on_scroll. destruct (negb (Scroll.ticking s)); cbn; lia.
    + destruct (animation_frame_effect s Hs) as (_ & Hfr & _ & Heff).
      destruct Hs as [Hf _]. rewrite Hfr.
      destruct (Scroll.ticking s).
      * destruct Heff as (_ & _ & ->). lia.
      * destruct Heff as (_ & _ & ->). lia.
    + assert (Hsame : Scroll.next_timeout (Scroll.run_timeout s) = Scroll.next_timeout s
                      /\ Scroll.frame_requests (Scroll.run_timeout s)
                         = Scroll.frame_requests s).
      { unfold Scroll.run_timeout.
        destruct (Scroll.take_due _ _) as [[? ?]|]; split; reflexivity. }
      destruct Hsame as [-> ->]. lia.
    + cbn. lia.
Qed.

(** ** The interception layer, continued *)

Lemma hex_value_bound c a : hex_value c = Some a -> a < 16.
Proof.
  unfold hex_value.
  destruct ((48 <=? c) && (c <=? 57)) eqn:H1.
  { apply andb_prop in H1 as [?%N.leb_le ?%N.leb_le]. intros [= <-]. lia. }
  destruct ((65 <=? c) && (c <=? 70)) eqn:H2.
  { apply andb_prop in H2 as [?%N.leb_le ?%N.leb_le]. intros [= <-]. lia. }
  destruct ((97 <=? c) && (c <=? 102)) eqn:H3; [|discriminate].
  apply andb_prop in H3 as [?%N.leb_le ?%N.leb_le]. intros [= <-]. lia.
Qed.

Lemma ParseHexOctet_bound s B : ParseHexOctet s = Some B -> B < 256.
Proof.
  destruct s as [|h [|l rest]]; try discriminate. cbn [ParseHexOctet].
  destruct (hex_value h) as [a|] eqn:Ha; [|discriminate].
  destruct (hex_value l) as [b|] eqn:Hb; [|discriminate].
  apply hex_value_bound in Ha, Hb. intros [= <-]. lia.
Qed.

Lemma is_continuation_bound b : is_continuation b = true -> 0x80 <= b <= 0xBF.
Proof.
  unfold is_continuation. intros [?%N.leb_le ?%N.leb_le]%andb_prop. lia.
Qed.

Lemma utf8_decode_bound B octs V :
  B < 256 -> utf8_decode (B :: octs) = Some V -> V < 0x110000.
Proof.
  intros HB. destruct octs as [|b1 [|b2 [|b3 [|b4 more]]]]; cbn [utf8_decode];
    try discriminate.
  - destruct (is_continuation b1) eqn:H1; [|discriminate].
    apply is_continuation_bound in H1.
    destruct (_ && _); [|discriminate]. intros [= <-]. lia.
  - destruct (is_continuation b1) eqn:H1; [|discriminate].
    destruct (is_continuation b2) eqn:H2; [|discriminate].
    apply is_continuation_bound in H1, H2.
    destruct (_ && _); [|discriminate]. intros [= <-]. lia.
  - destruct (is_continuation b1 && is_continuation b2 && is_continuation b3
              && (0x10000 <=? (B - 0xF0) * 262144 + (b1 - 0x80) * 4096
                               + (b2 - 0x80) * 64 + (b3 - 0x80))); [|discriminate].
    cbn [andb].
    destruct (N.leb_spec ((B - 0xF0) * 262144 + (b1 - 0x80) * 4096
                          + (b2 - 0x80) * 64 + (b3 - 0x80)) 0x10FFFF);
      [|discriminate].
    intros [= <-]. lia.
Qed.

Lemma UTF16EncodeCodePoint_ok V : V < 0x110000 -> jsstring_ok (UTF16EncodeCodePoint V).
Proof.
  intros HV. unfold UTF16EncodeCodePoint, jsstring_ok, code_unit_ok.
  destruct (N.leb_spec V 0xFFFF); repeat constructor; nlia.
Qed.

Lemma jsstring_ok_app a b : jsstring_ok a -> jsstring_ok b -> jsstring_ok (a ++ b).
Proof. apply Forall_app_2. Qed.

Lemma jsstring_ok_firstn n s : jsstring_ok s -> jsstring_ok (firstn n s).
Proof.
  intros Hs. apply Forall_take, Hs.
Qed.

(** [decodeURI] of a string is a string. *)
Lemma Decode_ok set s :
  jsstring_ok s -> forall skip d, Decode set skip s = Normal d -> jsstring_ok d.
Proof.
  induction 1 as [|C rest HC Hrest IH]; intros skip d.
  - intros [= <-]. constructor.
  - cbn [Decode]. destruct skip as [|skip']; [|apply IH].
    destruct (C =? percent).
    + destruct (ParseHexOctet rest) as [B|] eqn:HB; [|discriminate].
      apply ParseHexOctet_bound in HB.
      assert (Hmulti : forall n,
                 match continuation_octets (n - 1) (skipn 2 rest) with
                 | Some octets =>
                     match utf8_decode (B :: octets) with
                     | Some V =>
                         R <- Decode set (3 * n - 1) rest ;;
                         Normal (UTF16EncodeCodePoint V ++ R)
                     | None => Throw (VNativeError URIError)
                     end
                 | None => Throw (VNativeError URIError)
                 end = Normal d -> jsstring_ok d).
      { intros n. destruct (continuation_octets _ _) as [octets|]; [|discriminate].
        destruct (utf8_decode (B :: octets)) as [V|] eqn:HV; [|discriminate].
        apply utf8_decode_bound in HV; [|exact HB].
        destruct (Decode set (3 * n - 1) rest) as [R|] eqn:HR; [|discriminate].
        intros [= <-]. apply jsstring_ok_app;
          [apply UTF16EncodeCodePoint_ok, HV | eapply IH, HR]. }
      destruct (leading_ones B) as [|[|[|[|[|n]]]]]; try discriminate;
        try apply Hmulti.
      destruct (Decode set 2 rest) as [R|] eqn:HR; [|discriminate].
      cbn [bind]. intros [= <-]. apply jsstring_ok_app; [|eapply IH, HR].
      destruct (in_set B set).
      * constructor; [exact HC | apply jsstring_ok_firstn, Hrest].
      * repeat constructor. unfold code_unit_ok. lia.
    + destruct (Decode set 0 rest) as [R|] eqn:HR; [|discriminate].
      intros [= <-]. constructor; [exact HC | eapply IH, HR].
Qed.

Lemma hex_digit_character d : d < 16 -> in_set (hex_digit d) encodeURI_unescaped = true.
Proof.
  intros Hd.
  assert (H : forall n, (n < 16)%nat ->
                        in_set (hex_digit (N.of_nat n)) encodeURI_unescaped = true).
  { intros n Hn. do 16 (destruct n as [|n]; [reflexivity|]). lia. }
  rewrite <- (N2Nat.id d). apply H. lia.
Qed.

Lemma percent_escape_characters B :
  octet B -> forallb uri_character (percent_escape B) = true.
Proof.
  intros HB. unfold octet in HB. unfold percent_escape, uri_character.
  cbn [forallb]. rewrite !hex_digit_character by nlia.
  rewrite !orb_true_r. reflexivity.
Qed.

Lemma utf8_encode_octets cp : cp < 0x110000 -> Forall octet (utf8_encode cp).
Proof.
  intros Hcp. unfold utf8_encode, octet.
  destruct (N.ltb_spec cp 0x80); [repeat constructor; lia|].
  destruct (N.ltb_spec cp 0x800); [repeat constructor; nlia|].
  destruct (N.ltb_spec cp 0x10000); repeat constructor; nlia.
Qed.

Lemma escape_code_point_characters cp :
  cp < 0x110000 -> forallb uri_character (escape_code_point cp) = true.
Proof.
  intros Hcp. unfold escape_code_point.
  induction (utf8_encode_octets cp Hcp) as [|B octs HB _ IH]; [reflexivity|].
  cbn [flat_map]. rewrite forallb_app, IH, percent_escape_characters by exact HB.
  reflexivity.
Qed.

(** [encodeURI] writes with ["%"] and the characters it does not escape. *)
Lemma encodeURI_characters s :
  jsstring_ok s -> forall e, encodeURI s = Normal e -> forallb uri_character e = true.
Proof.
  unfold encodeURI.
  remember (length s) as n eqn:Hn. revert s Hn.
  induction n as [n IH] using lt_wf_ind. intros s Hn Hok e.
  destruct s as [|C rest]; [intros [= <-]; reflexivity|].
  apply Forall_cons_1 in Hok as [HC Hrest]. cbn [Encode].
  destruct (in_set C encodeURI_unescaped) eqn:Hset.
  { destruct (Encode encodeURI_unescaped rest) as [R|] eqn:HR; [|discriminate].
    intros [= <-]. cbn [forallb]. unfold uri_character at 1. rewrite Hset, orb_true_r.
    apply (IH (length rest)) with (s := rest); cbn in *; auto; lia. }
  destruct (is_leading_surrogate C) eqn:Hlead.
  { destruct rest as [|C2 rest2]; [discriminate|].
    destruct (is_trailing_surrogate C2) eqn:Htrail; [|discriminate].
    apply Forall_cons_1 in Hrest as [HC2 Hrest2].
    destruct (Encode encodeURI_unescaped rest2) as [R|] eqn:HR; [|discriminate].
    intros [= <-]. destruct (scalar_pair C C2 Hlead Htrail) as [[Hmax _] _].
    rewrite forallb_app, escape_code_point_characters by exact Hmax.
    apply (IH (length rest2)) with (s := rest2); cbn in *; auto; lia. }
  destruct (is_trailing_surrogate C); [discriminate|].
  destruct (Encode encodeURI_unescaped rest) as [R|] eqn:HR; [|discriminate].
  intros [= <-].
  rewrite forallb_app, escape_code_point_characters
    by (unfold code_unit_ok in HC; lia).
  apply (IH (length rest)) with (s := rest); cbn in *; auto; lia.
Qed.

Section TransformFacts.

Variable t2s : jsstring -> completion jsstring.

(** What [convertUrl] does to a non-empty string, step by step. *)
Lemma convertUrl_steps c s :
  (exists decoded simplified encoded,
      decodeURI (c :: s) = Normal decoded /\ t2s decoded = Normal simplified
      /\ encodeURI simplified = Normal encoded
      /\ convertUrl t2s (VString (c :: s)) = Normal (VString encoded))
  \/ convertUrl t2s (VString (c :: s)) = Normal (VString (c :: s)).
Proof.
  rewrite convertUrl_string.
  destruct (decodeURI (c :: s)) as [decoded|] eqn:Hd; [|right; reflexivity].
  cbn [bind try_catch].
  destruct (t2s decoded) as [simplified|] eqn:Ht; [|right; reflexivity].
  cbn [bind try_catch].
  destruct (encodeURI simplified) as [encoded|] eqn:He; [|right; reflexivity].
  left. exists decoded, simplified, encoded. auto.
Qed.

(** X13.  When the three steps succeed, the URL [convertUrl] returns decodes
    to exactly the text the library produced: what the original receives
    still spells the converted URL. *)
Theorem convertUrl_result_decodes
    (c : code_unit) (s decoded simplified encoded : jsstring) :
  decodeURI (c :: s) = Normal decoded ->
  t2s decoded = Normal simplified ->
  jsstring_ok simplified ->
  encodeURI simplified = Normal encoded ->
  convertUrl t2s (VString (c :: s)) = Normal (VString encoded)
  /\ decodeURI encoded = Normal simplified.
Proof.
  intros Hd Ht Hok He. split.
  - rewrite convertUrl_string, Hd. cbn [bind]. rewrite Ht. cbn [bind].
    rewrite He. reflexivity.
  - apply decodeURI_encodeURI with (s := simplified); assumption.
Qed.

(** X14.  A string that [convertUrl] returns is written with ASCII
    characters only, ["%"] and those [encodeURI] does not escape, unless it
    is the input itself, handed back untouched. *)
Theorem convertUrl_result_characters (s v : jsstring) :
  library_of_strings t2s ->
  jsstring_ok s ->
  convertUrl t2s (VString s) = Normal (VString v) ->
  v = s \/ (forallb uri_character v = true /\ Forall (fun c => c < 0x80) v).
Proof.
  intros Hlib Hs Hv. destruct s as [|c s]; [left; cbn in Hv; congruence|].
  destruct (convertUrl_steps c s) as [(d & t & e & Hd & Ht & He & Hconv) | Hsame];
    [|left; congruence].
  right. rewrite Hconv in Hv. injection Hv as <-.
  assert (Hchars : forallb uri_character e = true).
  { apply encodeURI_characters with (s := t); [|exact He].
    apply (Hlib d t); [|exact Ht]. unfold decodeURI in Hd. eapply Decode_ok; eauto. }
  split; [exact Hchars|].
  apply Forall_forall. rewrite forallb_forall in Hchars.
  intros x Hx%list_elem_of_In. specialize (Hchars x Hx). unfold uri_character in Hchars.
  apply orb_prop in Hchars as [->%N.eqb_eq | Hin]; [reflexivity|].
  apply unescaped_is_ascii, Hin.
Qed.

Lemma converted_fixed (url : value) :
  idempotent_library t2s -> value_ok url ->
  convertUrl t2s (converted t2s url) = Normal (converted t2s url).
Proof.
  intros Hlib Hok.
  destruct url as [| | | | | | [|c s] | | | | | | |];
    try (match goal with |- convertUrl _ (converted _ ?u) = _ =>
           replace (converted t2s u) with u
             by (unfold converted; rewrite convertUrl_not_string by discriminate;
                 reflexivity);
           apply convertUrl_not_string; discriminate
         end).
  { reflexivity. }
  unfold converted at 1 2.
  destruct (convertUrl_steps c s) as [(d & t & e & Hd & Ht & He & Hconv) | Hsame].
  - rewrite Hconv.
    assert (Hdok : jsstring_ok d) by (unfold decodeURI in Hd; eapply Decode_ok; eauto).
    destruct (Hlib d t Hdok Ht) as [Htok Hfix].
    pose proof (decodeURI_encodeURI t Htok e He) as Hde.
    destruct e as [|c' e']; [reflexivity|].
    rewrite convertUrl_string, Hde. cbn [bind]. rewrite Hfix. cbn [bind].
    rewrite He. reflexivity.
  - rewrite Hsame. exact Hsame.
Qed.

(** X15.  With a library that changes nothing in what it has converted,
    [convertUrl] is idempotent: applying it to its own result gives that
    result again. *)
Theorem convertUrl_idempotent (url : value) :
  idempotent_library t2s ->
  value_ok url ->
  (v <- convertUrl t2s url ;; convertUrl t2s v) = convertUrl t2s url.
Proof.
  intros Hlib Hok. rewrite convertUrl_returns. cbn [bind].
  apply converted_fixed; assumption.
Qed.

End TransformFacts.

Section LayerFacts.

Variable t2s : jsstring -> completion jsstring.
Variable host : Type.
Variable native : nat -> value -> list value -> host -> completion value * host.

Lemma arg_ok i args : Forall value_ok args -> value_ok (arg i args).
Proof.
  intros Hargs. unfold arg. destruct (args !! i) as [v|] eqn:Hv; [|exact I].
  cbn. eapply Forall_lookup_1; eassumption.
Qed.

Lemma rewritten_fixed v :
  idempotent_library t2s -> value_ok v ->
  rewritten t2s (rewritten t2s v) = rewritten t2s v.
Proof.
  intros Hlib Hok. destruct v; try reflexivity.
  cbn [rewritten]. pose proof (converted_fixed t2s (VString s) Hlib Hok) as Hfix.
  destruct (converted t2s (VString s)) eqn:Hc; try reflexivity.
  cbn [rewritten]. unfold converted at 1. rewrite Hfix. reflexivity.
Qed.

Lemma arg_0_cons (a : value) l : arg 0 (a :: l) = a.
Proof. reflexivity. Qed.

Lemma arg_1_cons (a b : value) l : arg 1 (a :: b :: l) = b.
Proof. reflexivity. Qed.

Lemma arg_2_cons (a b c : value) l : arg 2 (a :: b :: c :: l) = c.
Proof. reflexivity. Qed.

Lemma delegated_arguments_fixed d args :
  idempotent_library t2s -> Forall value_ok args ->
  delegated_arguments t2s d (delegated_arguments t2s d args)
  = delegated_arguments t2s d args.
Proof.
  intros Hlib Hargs. destruct d; cbn [delegated_arguments].
  - destruct args as [|a options]; [reflexivity|].
    apply Forall_cons_1 in Hargs as [Ha _]. rewrite rewritten_fixed by assumption.
    reflexivity.
  - rewrite arg_0_cons, arg_1_cons. cbn [skipn].
    rewrite rewritten_fixed by auto using arg_ok. reflexivity.
  - rewrite arg_0_cons, arg_1_cons, arg_2_cons.
    rewrite rewritten_fixed by auto using arg_ok. reflexivity.
  - rewrite arg_0_cons, arg_1_cons, arg_2_cons.
    rewrite rewritten_fixed by auto using arg_ok. reflexivity.
Qed.

(** X16.  With a library that changes nothing in what it has converted, a
    second layer of wrappers is harmless: a call through two layers hands
    the implementation underneath the receiver and the arguments one layer
    hands it, and leaves the world as one layer does. *)
Theorem second_layer_changes_nothing
    (d : dispatch_point) (original : func)
    (thisArg : value) (args : list value) (w : world host) :
  idempotent_library t2s ->
  Forall value_ok args ->
  delegated_arguments t2s d (delegated_arguments t2s d args)
  = delegated_arguments t2s d args
  /\ snd (invoke t2s host native (wrapper d (wrapper d original)) thisArg args w)
     = snd (invoke t2s host native (wrapper d original) thisArg args w)
  /\ fst (invoke t2s host native (wrapper d (wrapper d original)) thisArg args w)
     = outcome d (fst (invoke t2s host native (wrapper d original) thisArg args w)).
Proof.
  intros Hlib Hargs.
  pose proof (delegated_arguments_fixed d args Hlib Hargs) as Hfix.
  split; [exact Hfix|].
  rewrite (invoke_wrapper t2s host native d (wrapper d original)).
  rewrite !invoke_wrapper. cbn [fst snd].
  rewrite this_binding_idempotent, Hfix. split; reflexivity.
Qed.

(** X17.  A call to any function that can sit at a dispatch point, however
    many wrappers are stacked, reaches the host implementation at the bottom
    exactly once; through at least one wrapper the host receives the
    receiver coerced as for a non-strict function. *)
Theorem any_stack_calls_host_once
    (f : func) (thisArg : value) (args : list value) (w : world host) :
  exists args',
    calls (snd (invoke t2s host native f thisArg args w))
    = calls w ++ [{| callee := innermost f;
                     receiver := if Nat.eqb (layers f) 0 then thisArg
                                 else this_binding thisArg;
                     arguments := args' |}]
    /\ length (calls (snd (invoke t2s host native f thisArg args w)))
       = S (length (calls w)).
Proof.
  revert thisArg args.
  assert (Hwrap : forall d o,
             (forall thisArg args, exists args',
                 calls (snd (invoke t2s host native o thisArg args w))
                 = calls w ++ [{| callee := innermost o;
                                  receiver := if Nat.eqb (layers o) 0 then thisArg
                                              else this_binding thisArg;
                                  arguments := args' |}]
                 /\ length (calls (snd (invoke t2s host native o thisArg args w)))
                    = S (length (calls w))) ->
             forall thisArg args, exists args',
               calls (snd (invoke t2s host native (wrapper d o) thisArg args w))
               = calls w ++ [{| callee := innermost o; receiver := this_binding thisArg;
                                arguments := args' |}]
               /\ length (calls (snd (invoke t2s host native (wrapper d o) thisArg args w)))
                  = S (length (calls w))).
  { intros d o IH thisArg args. rewrite invoke_wrapper. cbn [snd].
    destruct (IH (this_binding thisArg) (delegated_arguments t2s d args))
      as (args' & Hcalls & Hlen).
    exists args'. split; [|exact Hlen]. rewrite Hcalls.
    destruct (Nat.eqb (layers o) 0); [reflexivity|].
    rewrite this_binding_idempotent. reflexivity. }
  induction f as [id|o IH|o IH|o IH|o IH]; intros thisArg args.
  - exists args. rewrite invoke_native. split; [reflexivity|].
    rewrite length_app. cbn. lia.
  - exact (Hwrap Fetch o IH thisArg args).
  - exact (Hwrap Open o IH thisArg args).
  - exact (Hwrap PushState o IH thisArg args).
  - exact (Hwrap ReplaceState o IH thisArg args).
Qed.

End LayerFacts.

Ltac same_bindings Hb :=
  let d := fresh "d" in
  intros d; destruct d;
  [exact (Hb Fetch) | exact (Hb Open) | exact (Hb PushState) | exact (Hb ReplaceState)].

Ltac wrapped_bindings Hb :=
  let d := fresh "d" in
  intros d; destruct d; cbn [binding wrapper install window_fetch XMLHttpRequest_open
                             history_pushState history_replaceState];
  f_equal;
  [exact (Hb Fetch) | exact (Hb Open) | exact (Hb PushState) | exact (Hb ReplaceState)].

(** The gate, whatever happens on the page. *)
Lemma gate_step_phases p q e :
  ((forall d, binding q d = binding p d) /\ console q = console p
   /\ exists t, timers q = [{| timer_callback := InitS2T; due := t |}])
  \/ ((forall d, binding q d = wrapper d (binding p d))
      /\ console q = console p ++ [startup_notice] /\ timers q = []) ->
  ((forall d, binding (step q e) d = binding p d) /\ console (step q e) = console p
   /\ exists t, timers (step q e) = [{| timer_callback := InitS2T; due := t |}])
  \/ ((forall d, binding (step q e) d = wrapper d (binding p d))
      /\ console (step q e) = console p ++ [startup_notice] /\ timers (step q e) = []).
Proof.
  intros [(Hb & Hc & t & Ht) | (Hb & Hc & Ht)]; destruct e as [late|lib];
    cbn [step].
  - unfold fire. rewrite Ht. cbn [run_callback timer_callback].
    unfold initS2T.
    match goal with |- context [ChineseS2T_undefined ?q0] =>
      destruct (ChineseS2T_undefined q0) end.
    + left. split; [same_bindings Hb|]. split; [exact Hc|]. eexists. reflexivity.
    + right. split; [wrapped_bindings Hb|]. split; [|reflexivity].
      cbn. rewrite Hc. reflexivity.
  - left. split; [same_bindings Hb|]. split; [exact Hc|]. exists t. exact Ht.
  - right. unfold fire. rewrite Ht. auto.
  - right. split; [same_bindings Hb|]. split; [exact Hc | exact Ht].
Qed.

(** X18.  Whatever the order in which the timer fires and the library loads
    (or is replaced), the page is at every moment in one of two states: the
    four dispatch points hold what they held, nothing is logged and one
    timer for [initS2T] is pending; or all four hold one wrapper around what
    they held, the notice is logged once and no timer is pending.  The
    installer never runs twice and never leaves the page half patched. *)
Theorem gate_installs_all_or_nothing (p : page) (es : list event) :
  timers p = [] ->
  let q := run es (initS2T p) in
  ((forall d, binding q d = binding p d) /\ console q = console p
   /\ exists t, timers q = [{| timer_callback := InitS2T; due := t |}])
  \/ ((forall d, binding q d = wrapper d (binding p d))
      /\ console q = console p ++ [startup_notice] /\ timers q = []).
Proof.
  intros Ht. cbv zeta. induction es as [|e es IH] using rev_ind.
  - cbn [run fold_left]. unfold initS2T.
    destruct (ChineseS2T_undefined p).
    + left. split; [intros []; reflexivity|]. split; [reflexivity|].
      cbn. rewrite Ht. eexists. reflexivity.
    + right. split; [intros []; reflexivity|]. split; [reflexivity | exact Ht].
  - unfold run in *. rewrite fold_left_app. cbn [fold_left].
    apply gate_step_phases, IH.
Qed.

(** * Instances of the further properties *)

Lemma t2s_sample_idempotent : idempotent_library t2s_sample.
Proof.
  intros decoded simplified Hok [= <-]. split.
  - unfold jsstring_ok in *. induction Hok as [|c s Hc _ IH]; constructor; [|exact IH].
    unfold code_unit_ok in *. destruct (c =? 0x9AD4); [lia|].
    destruct (c =? 0x9801); [lia | exact Hc].
  - unfold t2s_sample. f_equal. rewrite map_map. apply map_ext. intros c.
    destruct (N.eqb_spec c 0x9AD4); [reflexivity|].
    destruct (N.eqb_spec c 0x9801); [reflexivity|].
    destruct (N.eqb_spec c 0x9AD4); [contradiction|].
    destruct (N.eqb_spec c 0x9801); [contradiction | reflexivity].
Qed.

Lemma t2s_sample_strings : library_of_strings t2s_sample.
Proof. intros d t Hd Ht. apply (t2s_sample_idempotent d t Hd Ht). Qed.

Lemma search_traditional_ok : jsstring_ok search_traditional.
Proof. repeat constructor. Qed.

(** X5: the file named by [AD_KEYWORDS_FILE] does not exist. *)
Lemma AdKeywordsWrapper_file_without_keywords_witness :
  AdKeywordsWrapper sample_isAbsolute sample_join sample_cwd sample_readFile
    {| AD_KEYWORDS_FILE := Some (units "missing.txt");
       AD_KEYWORDS := Some (units "popup, overlay");
       NEXT_PUBLIC_AD_KEYWORDS := None |}
  = ([units "popup"; units "overlay"], []).
Proof.
  pose proof (AdKeywordsWrapper_file_without_keywords
                sample_isAbsolute sample_join sample_cwd sample_readFile
                {| AD_KEYWORDS_FILE := Some (units "missing.txt");
                   AD_KEYWORDS := Some (units "popup, overlay");
                   NEXT_PUBLIC_AD_KEYWORDS := None |}
                (units "missing.txt") (units "/app/missing.txt")
                eq_refl eq_refl I) as [Hk Hc].
  apply injective_projections; [rewrite Hk | rewrite Hc]; reflexivity.
Defined.

(** X6: the file of the sample process holds three keywords. *)
Lemma AdKeywordsWrapper_file_first_witness :
  AdKeywordsWrapper sample_isAbsolute sample_join sample_cwd sample_readFile sample_env
  = ([units "ads"; units "promo"; units "banner"],
     [Log_loaded 3 (units "/app/keywords.txt")]).
Proof.
  apply (AdKeywordsWrapper_file_first
           sample_isAbsolute sample_join sample_cwd sample_readFile
           sample_env sample_env 107 (units "eywords.txt")
           (units "/app/keywords.txt") sample_content);
    [reflexivity | reflexivity | reflexivity | reflexivity | discriminate].
Defined.

(** X8: the working directory cannot be determined. *)
Lemma AdKeywordsWrapper_cwd_throws_witness :
  AdKeywordsWrapper sample_isAbsolute sample_join (Throw (VObject 9)) sample_readFile
    sample_env
  = ([], [Warn_failed_to_load (VObject 9)]).
Proof.
  apply (AdKeywordsWrapper_cwd_throws
           sample_isAbsolute sample_join (Throw (VObject 9)) sample_readFile
           sample_env 107 (units "eywords.txt") (VObject 9));
    reflexivity.
Defined.

(** X10: a scroll, its frame, then 149 ms with a timer check and more
    scrolling in between. *)
Lemma scrolling_lasts_150ms_witness :
  Scroll.scrolling
    (Scroll.run ([Scroll.ScrollEvent] ++ Scroll.AnimationFrame
                 :: [Scroll.Elapse 100; Scroll.Timeout; Scroll.ScrollEvent;
                     Scroll.Elapse 49; Scroll.Timeout])
       (Scroll.start 1 0))
  = true.
Proof.
  apply (scrolling_lasts_150ms 1 0 [Scroll.ScrollEvent]
           [Scroll.Elapse 100; Scroll.Timeout; Scroll.ScrollEvent;
            Scroll.Elapse 49; Scroll.Timeout]);
    reflexivity.
Defined.

(** X13: the scenario of the search request. *)
Lemma convertUrl_result_decodes_witness :
  convertUrl t2s_sample (VString search_traditional)
  = Normal (VString search_simplified_encoded)
  /\ decodeURI search_simplified_encoded = Normal search_simplified.
Proof.
  apply (convertUrl_result_decodes t2s_sample 47 (List.tl search_traditional)
           search_traditional search_simplified search_simplified_encoded);
    [reflexivity | reflexivity | exact search_simplified_ok | reflexivity].
Defined.

(** X14: the scenario of the search request. *)
Lemma convertUrl_result_characters_witness :
  search_simplified_encoded = search_traditional
  \/ (forallb uri_character search_simplified_encoded = true
      /\ Forall (fun c => c < 0x80) search_simplified_encoded).
Proof.
  apply (convertUrl_result_characters t2s_sample search_traditional
           search_simplified_encoded);
    [exact t2s_sample_strings | exact search_traditional_ok | reflexivity].
Defined.

(** X15: the scenario of the search request. *)
Lemma convertUrl_idempotent_witness :
  (v <- convertUrl t2s_sample (VString search_traditional) ;; convertUrl t2s_sample v)
  = convertUrl t2s_sample (VString search_traditional).
Proof.
  apply (convertUrl_idempotent t2s_sample (VString search_traditional));
    [exact t2s_sample_idempotent | exact search_traditional_ok].
Defined.

(** X16: the search request through two layers. *)
Lemma second_layer_changes_nothing_witness :
  snd (invoke t2s_sample unit native_quiet (wrapper Fetch (wrapper Fetch (Native 0)))
         VUndefined [VString search_traditional] fresh_world)
  = snd (invoke t2s_sample unit native_quiet (wrapper Fetch (Native 0))
           VUndefined [VString search_traditional] fresh_world).
Proof.
  apply (second_layer_changes_nothing t2s_sample unit native_quiet Fetch (Native 0)
           VUndefined [VString search_traditional] fresh_world);
    [exact t2s_sample_idempotent |].
  constructor; [exact search_traditional_ok | constructor].
Defined.

(** X18: the timer fires, the library loads, the timer fires again, and the
    global is then set to [undefined]. *)
Lemma gate_installs_all_or_nothing_witness :
  let q := run [Fire 0; Load (VObject 1); Fire 3; Fire 0; Load VUndefined; Fire 1]
             (initS2T pristine_page) in
  ((forall d, binding q d = binding pristine_page d)
   /\ console q = console pristine_page
   /\ exists t, timers q = [{| timer_callback := InitS2T; due := t |}])
  \/ ((forall d, binding q d = wrapper d (binding pristine_page d))
      /\ console q = console pristine_page ++ [startup_notice] /\ timers q = []).
Proof.
  apply (gate_installs_all_or_nothing pristine_page
           [Fire 0; Load (VObject 1); Fire 3; Fire 0; Load VUndefined; Fire 1]).
  reflexivity.
Defined.
